(** * go_marshal: the scalar and primitive-newtype code generators

    A verification development for
    [tools/go_marshal/gomarshal/generator_interfaces.go] and
    [tools/go_marshal/gomarshal/generator_interfaces_primitive_newtype.go].

    The generator is embedded shallowly: every Go function of the generator is
    a Rocq function over an explicit [interfaceGenerator] state.  What the
    generator emits is Go source; it is kept as syntax trees ([expr], [stmt],
    [func_decl]) with a printer [render_stmt] that gives back the text of the
    format strings, and an interpreter that runs the emitted methods on a
    byte-addressed memory. *)

From Stdlib Require Import ZArith List Lia Bool.
From Stdlib Require Import Strings.String Strings.Ascii Strings.Byte.
From stdpp Require Import base gmap strings pretty.
Import ListNotations.

#[local] Set Warnings "-clear-no-such-hyp".

Local Open Scope string_scope.
Local Open Scope Z_scope.

(** ** Bytes *)

Module Bytes.

(** [byte(z)]: the low eight bits of an integer, as Go's conversion to
    [byte] takes them. *)
Definition of_Z (z : Z) : byte :=
  match Byte.of_N (Z.to_N (z mod 256)) with
  | Some b => b
  | None => Byte.x00
  end.

Definition to_Z (b : byte) : Z := Z.of_N (Byte.to_N b).

Lemma to_Z_range b : 0 <= to_Z b < 256.
Proof.
  unfold to_Z. pose proof (Byte.to_N_bounded b) as H.
  split; [apply N2Z.is_nonneg|]. lia.
Qed.

Lemma of_to_Z b : of_Z (to_Z b) = b.
Proof.
  unfold of_Z. pose proof (to_Z_range b) as H.
  rewrite Z.mod_small by exact H. unfold to_Z.
  rewrite N2Z.id, Byte.of_to_N. reflexivity.
Qed.

Lemma to_of_Z z : to_Z (of_Z z) = z mod 256.
Proof.
  unfold of_Z, to_Z.
  assert (Hr : 0 <= z mod 256 < 256) by (apply Z.mod_pos_bound; lia).
  destruct (Byte.of_N (Z.to_N (z mod 256))) as [b|] eqn:E.
  - apply Byte.to_of_N in E. rewrite E, Z2N.id; lia.
  - apply Byte.of_N_None_iff in E. lia.
Qed.

Lemma of_Z_mod z : of_Z (z mod 256) = of_Z z.
Proof. unfold of_Z. rewrite Z.mod_mod by lia. reflexivity. Qed.

End Bytes.

(** ** Byte orders

    [usermem.ByteOrder] is a value of Go's [binary.ByteOrder] interface.  The
    interface is kept as a class: [PutUint n v] is the [n]-byte encoding that
    [PutUint16], [PutUint32] and [PutUint64] store ([n] = 2, 4, 8) and
    [Uint bs] is what [Uint16], [Uint32] and [Uint64] read back. *)

Definition modulus (n : nat) : Z := 256 ^ Z.of_nat n.

Class ByteOrder := {
  PutUint : nat -> Z -> list byte;
  Uint : list byte -> Z;
  PutUint_length : forall n v, List.length (PutUint n v) = n;
  Uint_PutUint : forall n v, Uint (PutUint n v) = v mod modulus n;
  PutUint_Uint : forall bs, PutUint (List.length bs) (Uint bs) = bs;
  Uint_range : forall bs, 0 <= Uint bs < modulus (List.length bs)
}.

Fixpoint put_le (n : nat) (v : Z) : list byte :=
  match n with
  | O => []
  | S n' => Bytes.of_Z v :: put_le n' (v / 256)
  end.

Fixpoint get_le (bs : list byte) : Z :=
  match bs with
  | [] => 0
  | b :: bs' => Bytes.to_Z b + 256 * get_le bs'
  end.

Lemma modulus_S n : modulus (S n) = 256 * modulus n.
Proof. unfold modulus. rewrite Nat2Z.inj_succ, Z.pow_succ_r by lia. reflexivity. Qed.

Lemma modulus_pos n : 0 < modulus n.
Proof. unfold modulus. apply Z.pow_pos_nonneg; lia. Qed.

Lemma put_le_length n v : List.length (put_le n v) = n.
Proof. revert v. induction n as [|n IH]; intros v; simpl; [reflexivity|]. now rewrite IH. Qed.

Lemma get_put_le n v : get_le (put_le n v) = v mod modulus n.
Proof.
  revert v. induction n as [|n IH]; intros v.
  - simpl. unfold modulus. simpl. now rewrite Z.mod_1_r.
  - cbn [put_le get_le]. rewrite IH, Bytes.to_of_Z, modulus_S.
    pose proof (modulus_pos n).
    rewrite (Z.rem_mul_r v 256 (modulus n)) by lia. reflexivity.
Qed.

Lemma put_get_le bs : put_le (List.length bs) (get_le bs) = bs.
Proof.
  induction bs as [|b bs IH]; [reflexivity|].
  cbn [List.length put_le get_le].
  pose proof (Bytes.to_Z_range b) as Hb.
  assert (Hm : (Bytes.to_Z b + 256 * get_le bs) mod 256 = Bytes.to_Z b)
    by (Z.div_mod_to_equations; lia).
  assert (Hd : (Bytes.to_Z b + 256 * get_le bs) / 256 = get_le bs)
    by (Z.div_mod_to_equations; lia).
  rewrite Hd, IH, <- Bytes.of_Z_mod, Hm, Bytes.of_to_Z. reflexivity.
Qed.

Lemma get_le_range bs : 0 <= get_le bs < modulus (List.length bs).
Proof.
  induction bs as [|b bs IH].
  - simpl. unfold modulus. simpl. lia.
  - cbn [List.length get_le]. rewrite modulus_S.
    pose proof (Bytes.to_Z_range b). lia.
Qed.

(** [binary.LittleEndian], the order [usermem.ByteOrder] is bound to. *)
#[export] Instance LittleEndian : ByteOrder := {|
  PutUint := put_le;
  Uint := get_le;
  PutUint_length := put_le_length;
  Uint_PutUint := get_put_le;
  PutUint_Uint := put_get_le;
  Uint_range := get_le_range
|}.

(** [binary.BigEndian]: the same digits, most significant first. *)
Definition put_be (n : nat) (v : Z) : list byte := rev (put_le n v).
Definition get_be (bs : list byte) : Z := get_le (rev bs).

Lemma put_be_length n v : List.length (put_be n v) = n.
Proof. unfold put_be. now rewrite length_rev, put_le_length. Qed.

Lemma get_put_be n v : get_be (put_be n v) = v mod modulus n.
Proof. unfold get_be, put_be. rewrite rev_involutive. apply get_put_le. Qed.

Lemma put_get_be bs : put_be (List.length bs) (get_be bs) = bs.
Proof.
  unfold get_be, put_be. rewrite <- (length_rev bs), put_get_le.
  apply rev_involutive.
Qed.

Lemma get_be_range bs : 0 <= get_be bs < modulus (List.length bs).
Proof. unfold get_be. rewrite <- (length_rev bs). apply get_le_range. Qed.

Definition BigEndian : ByteOrder := {|
  PutUint := put_be;
  Uint := get_be;
  PutUint_length := put_be_length;
  Uint_PutUint := get_put_be;
  PutUint_Uint := put_get_be;
  Uint_range := get_be_range
|}.

(** ** The emitted Go code, as syntax

    The generator writes Go source text with [fmt]-style format strings.  The
    fragment it writes is small; it is kept as trees, and [render_stmt] prints
    a tree back to the text of the format string that produced it.  A string
    argument of a format ([accessor], [bufVar], [typ], the receiver name) is
    an [EId], printed verbatim like [%s]. *)

#[warnings="-register-all"]
Inductive expr : Type :=
| EId (x : string)                      (* x *)
| EInt (n : Z)                          (* %d *)
| EStar (e : expr)                      (* *e *)
| EAddr (e : expr)                      (* &e *)
| EParen (e : expr)                     (* (e) *)
| ESel (e : expr) (f : string)          (* e.f *)
| EIndex (e i : expr)                   (* e[i] *)
| ESliceTo (e hi : expr)                (* e[:hi] *)
| ESliceFrom (e lo : expr)              (* e[lo:] *)
| EXor (a b : expr)                     (* a^b *)
| ECall (f : expr) (args : list expr).  (* f(a, b) *)

Inductive stmt : Type :=
| SComment (text : string)                  (* // text *)
| SAssign (lhs rhs : expr)                  (* lhs = rhs *)
| SDefine (lhs : list string) (rhs : expr)  (* a, b := rhs *)
| SVar (x ty : string)                      (* var x ty *)
| SExpr (e : expr)                          (* e *)
| SReturn (es : list expr).                 (* return a, b *)

(** The header line of a method: [func (recv *recv_ty) name(params) results {]. *)
Record func_header := {
  recv : string;
  recv_ty : string;
  name : string;
  params : list (string * string);
  results : string
}.

(** One [emit] call writes one of these. *)
Inductive item : Type :=
| Doc (text : string)            (* a comment line outside a body *)
| FuncOpen (h : func_header)     (* func ... { *)
| Stmt (s : stmt)                (* a line of a body *)
| FuncClose.                     (* } and an empty line *)

Module Render.

Fixpoint sep_by (sep : string) (l : list string) : string :=
  match l with
  | [] => EmptyString
  | [x] => x
  | x :: l' => x ++ sep ++ sep_by sep l'
  end.

Fixpoint expr_text (e : expr) : string :=
  match e with
  | EId x => x
  | EInt n => pretty n
  | EStar e => "*" ++ expr_text e
  | EAddr e => "&" ++ expr_text e
  | EParen e => "(" ++ expr_text e ++ ")"
  | ESel e f => expr_text e ++ "." ++ f
  | EIndex e i => expr_text e ++ "[" ++ expr_text i ++ "]"
  | ESliceTo e hi => expr_text e ++ "[:" ++ expr_text hi ++ "]"
  | ESliceFrom e lo => expr_text e ++ "[" ++ expr_text lo ++ ":]"
  | EXor a b => expr_text a ++ "^" ++ expr_text b
  | ECall f args => expr_text f ++ "(" ++ sep_by ", " (map expr_text args) ++ ")"
  end.

Definition stmt_text (s : stmt) : string :=
  match s with
  | SComment text => "// " ++ text
  | SAssign lhs rhs => expr_text lhs ++ " = " ++ expr_text rhs
  | SDefine lhs rhs => sep_by ", " lhs ++ " := " ++ expr_text rhs
  | SVar x ty => "var " ++ x ++ " " ++ ty
  | SExpr e => expr_text e
  | SReturn es => "return " ++ sep_by ", " (map expr_text es)
  end.

Definition param_text (p : string * string) : string := fst p ++ " " ++ snd p.

Definition header_text (h : func_header) : string :=
  "func (" ++ recv h ++ " *" ++ recv_ty h ++ ") " ++ name h
    ++ "(" ++ sep_by ", " (map param_text (params h)) ++ ") "
    ++ (if String.eqb (results h) EmptyString then "{" else results h ++ " {").

Definition item_text (i : item) : string :=
  match i with
  | Doc text => "// " ++ text
  | FuncOpen h => header_text h
  | Stmt s => stmt_text s
  | FuncClose => "}"
  end.

End Render.

(** ** The generator state *)

(** [go/token]: a position is an integer offset that a [FileSet] resolves to
    a file, line and column. *)
Definition Pos := Z.

Record Position := {
  Filename : string;
  Line : Z;
  Column : Z
}.

Definition FileSet := Pos -> Position.

(** [go/ast]: an identifier and where it stands; a type declaration
    [type Name ...]. *)
Record Ident := {
  Name : string;
  NamePos : Pos
}.

Record TypeSpec := {
  TypeSpec_Name : Ident
}.

(** Modelled from the spec: the synthesizer's output ([sourceBuffer], embedded
    in [interfaceGenerator] and declared outside the files at hand).  Emitted
    operations accumulate in order; every line is written at the current
    indentation, and [newlines] counts the line ends its format string closes
    with. *)
Record line := {
  depth : nat;
  code : item;
  newlines : nat
}.

Record sourceBuffer := {
  b : list line;
  indent : nat
}.

(** [interfaceGenerator] generates marshalling interfaces for a single type. *)
Record interfaceGenerator := {
  buffer : sourceBuffer;
  (* The type we're serializing. *)
  t : TypeSpec;
  (* Receiver argument for generated methods. *)
  r : string;
  (* FileSet containing the tokens for the type we're processing. *)
  f : FileSet;
  (* is records external packages referenced by the generated implementation. *)
  is_ : gset string;
  (* ms records Marshallable types referenced by the generated implementation. *)
  ms : gset string;
  (* as records embedded fields in t that are potentially not packed; the key
     is the accessor for the field. *)
  as_ : gset string
}.

(** A generator method with a pointer receiver and no result is a state
    transformer. *)
Definition gen := interfaceGenerator -> interfaceGenerator.

Definition seq_gen (a b : gen) : gen := fun g => b (a g).

Declare Scope gen_scope.
Delimit Scope gen_scope with gen.
Bind Scope gen_scope with gen.
Notation "a ;; b" := (seq_gen a b) : gen_scope.

Definition with_buffer (k : sourceBuffer -> sourceBuffer) : gen := fun g =>
  {| buffer := k (buffer g); t := t g; r := r g; f := f g;
     is_ := is_ g; ms := ms g; as_ := as_ g |}.

Definition emit_n (n : nat) (i : item) : gen :=
  with_buffer (fun sb =>
    {| b := b sb ++ [{| depth := indent sb; code := i; newlines := n |}];
       indent := indent sb |}).

(** [g.emit("...\n")] and [g.emit("...\n\n")]. *)
Definition emit (i : item) : gen := emit_n 1 i.
Definition emit2 (i : item) : gen := emit_n 2 i.

Definition incIndent : gen :=
  with_buffer (fun sb => {| b := b sb; indent := S (indent sb) |}).
Definition decIndent : gen :=
  with_buffer (fun sb => {| b := b sb; indent := Nat.pred (indent sb) |}).

Definition inIndent (body : gen) : gen := (incIndent ;; body ;; decIndent)%gen.

(** The items written so far, in order. *)
Definition emitted (g : interfaceGenerator) : list item := map code (b (buffer g)).

(** typeName returns the name of the type this g represents. *)
Definition typeName (g : interfaceGenerator) : string := Name (TypeSpec_Name (t g)).

Definition recordUsedMarshallable (m : string) : gen := fun g =>
  {| buffer := buffer g; t := t g; r := r g; f := f g;
     is_ := is_ g; ms := {[m]} ∪ ms g; as_ := as_ g |}.

Definition recordUsedImport (i : string) : gen := fun g =>
  {| buffer := buffer g; t := t g; r := r g; f := f g;
     is_ := {[i]} ∪ is_ g; ms := ms g; as_ := as_ g |}.

Definition recordPotentiallyNonPackedField (fieldName : string) : gen := fun g =>
  {| buffer := buffer g; t := t g; r := r g; f := f g;
     is_ := is_ g; ms := ms g; as_ := {[fieldName]} ∪ as_ g |}.

(** newInterfaceGenerator creates a new interface generator; the receiver
    name is computed by [receiverName], outside the files at hand, and is
    taken as an argument. *)
Definition newInterfaceGenerator (receiverName : TypeSpec -> string)
    (t0 : TypeSpec) (fset : FileSet) : interfaceGenerator :=
  let g := {| buffer := {| b := []; indent := 0 |};
              t := t0; r := receiverName t0; f := fset;
              is_ := ∅; ms := ∅; as_ := ∅ |} in
  recordUsedMarshallable (typeName g) g.

Definition fieldAccessor (g : interfaceGenerator) (n : Ident) : string :=
  r g ++ "." ++ Name n.

(** A Go [switch] on a string: the first clause that lists the value. *)
Fixpoint switch {A : Type} (x : string) (clauses : list (list string * A)) (default : A) : A :=
  match clauses with
  | [] => default
  | (labels, body) :: rest =>
      if existsb (String.eqb x) labels then body else switch x rest default
  end.

(** scalarSize returns the size of type identified by t. If t isn't a
    primitive type, the size isn't known at code generation time. *)
Definition scalarSize (t0 : Ident) : Z * bool :=
  switch (Name t0)
    [ (["int8"; "uint8"; "byte"], (1, false));
      (["int16"; "uint16"], (2, false));
      (["int32"; "uint32"], (4, false));
      (["int64"; "uint64"], (8, false)) ]
    (0, true).

(** ** generator_interfaces.go: scalars *)

Definition say (s : stmt) : gen := emit (Stmt s).
Definition say2 (s : stmt) : gen := emit2 (Stmt s).

(** Shorthands for the shapes the format strings share. *)
Definition conv (ty : string) (e : expr) : expr := ECall (EId ty) [e].
Definition method (x m : string) (args : list expr) : expr := ECall (ESel (EId x) m) args.
Definition byteOrder (m : string) (args : list expr) : expr :=
  ECall (ESel (ESel (EId "usermem") "ByteOrder") m) args.
Definition index0 (bufVar : string) : expr := EIndex (EId bufVar) (EInt 0).
Definition upto (bufVar : string) (n : Z) : expr := ESliceTo (EId bufVar) (EInt n).
Definition uptoSize (bufVar x : string) : expr :=
  ESliceTo (EId bufVar) (method x "SizeBytes" []).

(* g.emit("%s = %s[%d:]\n", bufVar, bufVar, n) *)
Definition shift (bufVar : string) (n : Z) : gen :=
  say (SAssign (EId bufVar) (ESliceFrom (EId bufVar) (EInt n))).

(* g.emit("%s = %s[%s.SizeBytes():]\n", bufVar, bufVar, name) *)
Definition shiftDynamic (bufVar name0 : string) : gen :=
  say (SAssign (EId bufVar) (ESliceFrom (EId bufVar) (method name0 "SizeBytes" []))).

(** marshalScalar writes a single scalar to a byte slice. *)
Definition marshalScalar (accessor typ bufVar : string) : gen :=
  switch typ
    [ (["int8"; "uint8"; "byte"],
        (say (SAssign (index0 bufVar) (conv "byte" (EId accessor))) ;;
         shift bufVar 1)%gen);
      (["int16"; "uint16"],
        (recordUsedImport "usermem" ;;
         say (SExpr (byteOrder "PutUint16" [upto bufVar 2; conv "uint16" (EId accessor)])) ;;
         shift bufVar 2)%gen);
      (["int32"; "uint32"],
        (recordUsedImport "usermem" ;;
         say (SExpr (byteOrder "PutUint32" [upto bufVar 4; conv "uint32" (EId accessor)])) ;;
         shift bufVar 4)%gen);
      (["int64"; "uint64"],
        (recordUsedImport "usermem" ;;
         say (SExpr (byteOrder "PutUint64" [upto bufVar 8; conv "uint64" (EId accessor)])) ;;
         shift bufVar 8)%gen) ]
    (say (SExpr (method accessor "MarshalBytes" [uptoSize bufVar accessor])) ;;
     shiftDynamic bufVar accessor)%gen.

(** unmarshalScalar reads a single scalar from a byte slice. *)
Definition unmarshalScalar (accessor typ bufVar : string) : gen :=
  switch typ
    [ (["int8"],
        (say (SAssign (EId accessor) (conv "int8" (index0 bufVar))) ;;
         shift bufVar 1)%gen);
      (["uint8"],
        (say (SAssign (EId accessor) (conv "uint8" (index0 bufVar))) ;;
         shift bufVar 1)%gen);
      (["byte"],
        (say (SAssign (EId accessor) (index0 bufVar)) ;;
         shift bufVar 1)%gen);
      (["int16"],
        (recordUsedImport "usermem" ;;
         say (SAssign (EId accessor) (conv "int16" (byteOrder "Uint16" [upto bufVar 2]))) ;;
         shift bufVar 2)%gen);
      (["uint16"],
        (recordUsedImport "usermem" ;;
         say (SAssign (EId accessor) (byteOrder "Uint16" [upto bufVar 2])) ;;
         shift bufVar 2)%gen);
      (["int32"],
        (recordUsedImport "usermem" ;;
         say (SAssign (EId accessor) (conv "int32" (byteOrder "Uint32" [upto bufVar 4]))) ;;
         shift bufVar 4)%gen);
      (["uint32"],
        (recordUsedImport "usermem" ;;
         say (SAssign (EId accessor) (byteOrder "Uint32" [upto bufVar 4])) ;;
         shift bufVar 4)%gen);
      (["int64"],
        (recordUsedImport "usermem" ;;
         say (SAssign (EId accessor) (conv "int64" (byteOrder "Uint64" [upto bufVar 8]))) ;;
         shift bufVar 8)%gen);
      (["uint64"],
        (recordUsedImport "usermem" ;;
         say (SAssign (EId accessor) (byteOrder "Uint64" [upto bufVar 8])) ;;
         shift bufVar 8)%gen) ]
    (say (SExpr (method accessor "UnmarshalBytes" [uptoSize bufVar accessor])) ;;
     shiftDynamic bufVar accessor ;;
     recordPotentiallyNonPackedField accessor)%gen.

(** ** generator_interfaces_primitive_newtype.go *)

(* inner := ( *typ)(accessor) *)
Definition defineInner (typ accessor : string) : stmt :=
  SDefine ["inner"] (ECall (EParen (EStar (EId typ))) [EId accessor]).

(** marshalPrimitiveScalar writes a single primitive variable to a byte
    slice. *)
Definition marshalPrimitiveScalar (accessor typ bufVar : string) : gen :=
  switch typ
    [ (["int8"; "uint8"; "byte"],
        say (SAssign (index0 bufVar) (conv "byte" (EStar (EId accessor)))));
      (["int16"; "uint16"],
        (recordUsedImport "usermem" ;;
         say (SExpr (byteOrder "PutUint16" [upto bufVar 2; conv "uint16" (EStar (EId accessor))])))%gen);
      (["int32"; "uint32"],
        (recordUsedImport "usermem" ;;
         say (SExpr (byteOrder "PutUint32" [upto bufVar 4; conv "uint32" (EStar (EId accessor))])))%gen);
      (["int64"; "uint64"],
        (recordUsedImport "usermem" ;;
         say (SExpr (byteOrder "PutUint64" [upto bufVar 8; conv "uint64" (EStar (EId accessor))])))%gen) ]
    (say (SComment "Explicilty cast to the underlying type before dispatching to") ;;
     say (SComment ("MarshalBytes, so we don't recursively call " ++ accessor ++ ".MarshalBytes")) ;;
     say (defineInner typ accessor) ;;
     say (SExpr (method "inner" "MarshalBytes" [uptoSize bufVar accessor])))%gen.

(** unmarshalPrimitiveScalar read a single primitive variable from a byte
    slice. *)
Definition unmarshalPrimitiveScalar (accessor typ bufVar typeCast : string) : gen :=
  let store (e : expr) := say (SAssign (EStar (EId accessor)) (conv typeCast e)) in
  switch typ
    [ (["int8"], store (conv "int8" (index0 bufVar)));
      (["uint8"], store (conv "uint8" (index0 bufVar)));
      (["byte"], store (index0 bufVar));
      (["int16"],
        (recordUsedImport "usermem" ;;
         store (conv "int16" (byteOrder "Uint16" [upto bufVar 2])))%gen);
      (["uint16"],
        (recordUsedImport "usermem" ;;
         store (byteOrder "Uint16" [upto bufVar 2]))%gen);
      (["int32"],
        (recordUsedImport "usermem" ;;
         store (conv "int32" (byteOrder "Uint32" [upto bufVar 4])))%gen);
      (["uint32"],
        (recordUsedImport "usermem" ;;
         store (byteOrder "Uint32" [upto bufVar 4]))%gen);
      (["int64"],
        (recordUsedImport "usermem" ;;
         store (conv "int64" (byteOrder "Uint64" [upto bufVar 8])))%gen);
      (["uint64"],
        (recordUsedImport "usermem" ;;
         store (byteOrder "Uint64" [upto bufVar 8]))%gen) ]
    (say (SComment "Explicilty cast to the underlying type before dispatching to") ;;
     say (SComment ("UnmarshalBytes, so we don't recursively call " ++ accessor ++ ".UnmarshalBytes")) ;;
     say (defineInner typ accessor) ;;
     say (SExpr (method "inner" "UnmarshalBytes" [uptoSize bufVar accessor])))%gen.

(** What a run of the validator does to the tool: it goes on, possibly after
    a debug message, or [abortAt] stops the tool with a message at a source
    position. *)
Inductive verdict : Type :=
| Passed
| PassedWithDebug (p : Position) (msg : string)
| Aborted (p : Position) (msg : string).

Definition validatePrimitiveNewtype (g : interfaceGenerator) (t0 : Ident) : verdict :=
  switch (Name t0)
    [ (["int8"; "uint8"; "byte"; "int16"; "uint16"; "int32"; "uint32"; "int64"; "uint64"],
        Passed);
      (["int"],
        Aborted (f g (NamePos t0)) "Type 'int' has ambiguous width, use int32 or int64");
      (["uint"],
        Aborted (f g (NamePos t0)) "Type 'uint' has ambiguous width, use uint32 or uint64");
      (["string"],
        Aborted (f g (NamePos t0))
          "Type 'string' is dynamically-sized and cannot be marshalled, use a fixed size byte array '[...]byte' instead") ]
    (PassedWithDebug (f g (NamePos t0))
       ("Found derived type '" ++ Name t0
          ++ "', will attempt dispatch via marshal.Marshallable." ++ String (ascii_of_nat 10) EmptyString)).

(** The three lines every view-building body opens with, the view itself,
    and the lines that close the body after the transfer. *)
Definition bypassEscapeAnalysis (g : interfaceGenerator) : gen :=
  (say (SComment ("Bypass escape analysis on " ++ r g ++ ". The no-op arithmetic operation on the")) ;;
   say (SComment ("pointer makes the compiler think val doesn't depend on " ++ r g ++ ".")) ;;
   say (SComment "See src/runtime/stubs.go:noescape() in the golang toolchain.") ;;
   say (SDefine ["ptr"] (ECall (ESel (EId "unsafe") "Pointer") [EId (r g)])) ;;
   say (SDefine ["val"] (conv "uintptr" (EId "ptr"))) ;;
   say2 (SAssign (EId "val") (EXor (EId "val") (EInt 0))))%gen.

Definition constructSlice (g : interfaceGenerator) : gen :=
  (say (SComment ("Construct a slice backed by " ++ r g ++ "'s underlying memory.")) ;;
   say (SVar "buf" "[]byte") ;;
   say (SDefine ["hdr"]
          (ECall (EParen (EStar (ESel (EId "reflect") "SliceHeader")))
             [ECall (ESel (EId "unsafe") "Pointer") [EAddr (EId "buf")]])) ;;
   say (SAssign (ESel (EId "hdr") "Data") (EId "val")) ;;
   say (SAssign (ESel (EId "hdr") "Len") (method (r g) "SizeBytes" [])) ;;
   say2 (SAssign (ESel (EId "hdr") "Cap") (method (r g) "SizeBytes" [])))%gen.

Definition keepAlive (g : interfaceGenerator) (what : string) : gen :=
  (say (SComment ("Since we bypassed the compiler's escape analysis, indicate that " ++ r g)) ;;
   say (SComment ("must live until after the " ++ what ++ ".")) ;;
   say (SExpr (ECall (ESel (EId "runtime") "KeepAlive") [EId (r g)])))%gen.

Definition header (g : interfaceGenerator) (name0 : string)
    (params0 : list (string * string)) (results0 : string) : item :=
  FuncOpen {| recv := r g; recv_ty := typeName g; name := name0;
              params := params0; results := results0 |}.

(** emitMarshallableForPrimitiveNewtype outputs code to implement the
    marshal.Marshallable interface for a newtype on a primitive. Primitive
    newtypes are always packed, so we can omit the various fallbacks required
    for non-packed structs. *)
Definition emitMarshallableForPrimitiveNewtype (nt : Ident) : gen := fun g =>
  (emit (Doc "SizeBytes implements marshal.Marshallable.SizeBytes.") ;;
   emit (header g "SizeBytes" [] "int") ;;
   inIndent
     (let '(size, dynamic) := scalarSize nt in
      if negb dynamic then say (SReturn [EInt size])
      else say (SReturn
                  [ECall (ESel (ECall (EParen (EStar (EId (Name nt)))) [EId "nil"]) "SizeBytes") []])) ;;
   emit2 FuncClose ;;

   emit (Doc "MarshalBytes implements marshal.Marshallable.MarshalBytes.") ;;
   emit (header g "MarshalBytes" [("dst", "[]byte")] EmptyString) ;;
   inIndent (marshalPrimitiveScalar (r g) (Name nt) "dst") ;;
   emit2 FuncClose ;;

   emit (Doc "UnmarshalBytes implements marshal.Marshallable.UnmarshalBytes.") ;;
   emit (header g "UnmarshalBytes" [("src", "[]byte")] EmptyString) ;;
   inIndent (unmarshalPrimitiveScalar (r g) (Name nt) "src" (typeName g)) ;;
   emit2 FuncClose ;;

   emit (Doc "Packed implements marshal.Marshallable.Packed.") ;;
   emit (header g "Packed" [] "bool") ;;
   inIndent
     (say (SComment "Scalar newtypes are always packed.") ;;
      say (SReturn [EId "true"])) ;;
   emit2 FuncClose ;;

   emit (Doc "MarshalUnsafe implements marshal.Marshallable.MarshalUnsafe.") ;;
   recordUsedImport "safecopy" ;;
   recordUsedImport "unsafe" ;;
   emit (header g "MarshalUnsafe" [("dst", "[]byte")] EmptyString) ;;
   inIndent
     (say (SExpr (ECall (ESel (EId "safecopy") "CopyIn")
                    [EId "dst"; ECall (ESel (EId "unsafe") "Pointer") [EId (r g)]]))) ;;
   emit2 FuncClose ;;

   emit (Doc "UnmarshalUnsafe implements marshal.Marshallable.UnmarshalUnsafe.") ;;
   recordUsedImport "safecopy" ;;
   recordUsedImport "unsafe" ;;
   emit (header g "UnmarshalUnsafe" [("src", "[]byte")] EmptyString) ;;
   inIndent
     (say (SExpr (ECall (ESel (EId "safecopy") "CopyOut")
                    [ECall (ESel (EId "unsafe") "Pointer") [EId (r g)]; EId "src"]))) ;;
   emit2 FuncClose ;;

   emit (Doc "CopyOut implements marshal.Marshallable.CopyOut.") ;;
   recordUsedImport "marshal" ;;
   recordUsedImport "usermem" ;;
   emit (header g "CopyOut" [("task", "marshal.Task"); ("addr", "usermem.Addr")] "(int, error)") ;;
   inIndent
     ((* Fast serialization. *)
      bypassEscapeAnalysis g ;;
      constructSlice g ;;
      say (SDefine ["len"; "err"] (method "task" "CopyOutBytes" [EId "addr"; EId "buf"])) ;;
      keepAlive g "CopyOutBytes" ;;
      say (SReturn [EId "len"; EId "err"])) ;;
   emit2 FuncClose ;;

   emit (Doc "CopyIn implements marshal.Marshallable.CopyIn.") ;;
   recordUsedImport "marshal" ;;
   recordUsedImport "usermem" ;;
   emit (header g "CopyIn" [("task", "marshal.Task"); ("addr", "usermem.Addr")] "(int, error)") ;;
   inIndent
     (bypassEscapeAnalysis g ;;
      constructSlice g ;;
      say (SDefine ["len"; "err"] (method "task" "CopyInBytes" [EId "addr"; EId "buf"])) ;;
      keepAlive g "CopyInBytes" ;;
      say (SReturn [EId "len"; EId "err"])) ;;
   emit2 FuncClose ;;

   emit (Doc "WriteTo implements io.WriterTo.WriteTo.") ;;
   recordUsedImport "io" ;;
   emit (header g "WriteTo" [("w", "io.Writer")] "(int64, error)") ;;
   inIndent
     (bypassEscapeAnalysis g ;;
      constructSlice g ;;
      say (SDefine ["len"; "err"] (method "w" "Write" [EId "buf"])) ;;
      keepAlive g "Write" ;;
      say (SReturn [conv "int64" (EId "len"); EId "err"])) ;;
   emit2 FuncClose)%gen g.

(** The text of the buffer: each line behind its tabs, closed by its line
    ends. *)
Definition tab : string := String (ascii_of_nat 9) EmptyString.
Definition newline : string := String (ascii_of_nat 10) EmptyString.

Fixpoint repeat_string (s : string) (n : nat) : string :=
  match n with
  | O => EmptyString
  | S n' => s ++ repeat_string s n'
  end.

Definition line_text (l : line) : string :=
  repeat_string tab (depth l) ++ Render.item_text (code l) ++ repeat_string newline (newlines l).

Definition buffer_text (sb : sourceBuffer) : string :=
  fold_right (fun l rest => line_text l ++ rest) EmptyString (b sb).

(** ** Running the emitted code

    *** Scalars *)

Inductive prim : Type :=
| Int8 | Uint8 | Byte_ | Int16 | Uint16 | Int32 | Uint32 | Int64 | Uint64.

Definition prim_name (p : prim) : string :=
  match p with
  | Int8 => "int8" | Uint8 => "uint8" | Byte_ => "byte"
  | Int16 => "int16" | Uint16 => "uint16"
  | Int32 => "int32" | Uint32 => "uint32"
  | Int64 => "int64" | Uint64 => "uint64"
  end.

Definition prims : list prim :=
  [Int8; Uint8; Byte_; Int16; Uint16; Int32; Uint32; Int64; Uint64].

Definition prim_of_name (s : string) : option prim :=
  find (fun p => String.eqb s (prim_name p)) prims.

(** Width in bytes and signedness, as the Go language fixes them. *)
Definition width (p : prim) : nat :=
  match p with
  | Int8 | Uint8 | Byte_ => 1
  | Int16 | Uint16 => 2
  | Int32 | Uint32 => 4
  | Int64 | Uint64 => 8
  end%nat.

Definition signed (p : prim) : bool :=
  match p with
  | Int8 | Int16 | Int32 | Int64 => true
  | _ => false
  end.

(** The values of a scalar type, and Go's conversion to it: keep the low
    bits, read them in the type's signedness. *)
Definition in_range (p : prim) (z : Z) : Prop :=
  if signed p then - (modulus (width p) / 2) <= z < modulus (width p) / 2
  else 0 <= z < modulus (width p).

Definition wrap (p : prim) (z : Z) : Z :=
  let m := modulus (width p) in
  let u := z mod m in
  if signed p && (m / 2 <=? u) then u - m else u.

(** *** Memory, slices and values *)

Definition memory := Z -> byte.

Definition read (m : memory) (a : Z) (n : nat) : list byte :=
  map (fun i => m (a + Z.of_nat i)) (seq 0 n).

Definition write (m : memory) (a : Z) (bs : list byte) : memory :=
  fun x =>
    if (a <=? x) && (x <? a + Z.of_nat (List.length bs))
    then nth (Z.to_nat (x - a)) bs Byte.x00
    else m x.

(** A slice is its header: [reflect.SliceHeader]. *)
Record slice := {
  Data : Z;
  Len : Z;
  Cap : Z
}.

Definition contents (m : memory) (s : slice) : list byte :=
  read m (Data s) (Z.to_nat (Len s)).

(** A Go [error]: nil, or an error with its text. *)
Definition error := option string.

Inductive value : Type :=
| VInt (z : Z)
| VBool (v : bool)
| VSlice (s : slice)
| VPtr (a : Z) (ty : string)   (* a *ty; an unsafe.Pointer when ty is empty *)
| VLocal (x : string)          (* the address of the local variable x *)
| VNil
| VErr (e : error)
| VByteOrder                   (* usermem.ByteOrder *)
| VTask                        (* the marshal.Task argument *)
| VWriter.                     (* the io.Writer argument *)

(** The collaborators the emitted code calls and the generator does not
    define: the task's address space and the output sink.  [CopyOutBytes]
    receives the bytes of the view it is handed; [CopyInBytes] receives the
    length of the view and answers with the bytes it stores at its front. *)
Class Externals := {
  task_state : Type;
  sink_state : Type;
  CopyOutBytes : task_state -> Z -> list byte -> task_state * (Z * error);
  CopyInBytes : task_state -> Z -> nat -> task_state * (list byte * (Z * error));
  Write : sink_state -> list byte -> sink_state * (Z * error)
}.

Record world `{Externals} := {
  mem : memory;
  task : task_state;
  sink : sink_state
}.

Definition set_mem `{Externals} (w : world) (m : memory) : world :=
  {| mem := m; task := task w; sink := sink w |}.

(** How a run ends: with a result, in a Go panic (an index or a slice bound
    out of range, a nil dereference), on code outside the emitted fragment,
    or because the call depth allowed was used up. *)
Inductive result (A : Type) : Type :=
| Ok (a : A)
| Panic
| Stuck
| OutOfFuel.
Arguments Ok {A} a.
Arguments Panic {A}.
Arguments Stuck {A}.
Arguments OutOfFuel {A}.

Definition bind {A B : Type} (m : result A) (k : A -> result B) : result B :=
  match m with
  | Ok a => k a
  | Panic => Panic
  | Stuck => Stuck
  | OutOfFuel => OutOfFuel
  end.

Notation "'let*' x := m 'in' k" := (bind m (fun x => k))
  (at level 10, x pattern, m at level 100, k at level 200).

Definition env := list (string * value).

Fixpoint lookup_var (x : string) (ρ : env) : option value :=
  match ρ with
  | [] => None
  | (y, v) :: ρ' => if String.eqb x y then Some v else lookup_var x ρ'
  end.

Fixpoint update_var (x : string) (v : value) (ρ : env) : option env :=
  match ρ with
  | [] => None
  | (y, v0) :: ρ' =>
      if String.eqb x y then Some ((y, v) :: ρ')
      else option_map (cons (y, v0)) (update_var x v ρ')
  end.

(** *** The interpreter *)

(** A generated method, cut out of the emitted items. *)
Record func_decl := {
  header_of : func_header;
  body : list stmt
}.

Fixpoint methods_from (items : list item) (open : option (func_header * list stmt))
    : list func_decl :=
  match items with
  | [] => []
  | i :: rest =>
      match i, open with
      | FuncOpen h, _ => methods_from rest (Some (h, []))
      | Stmt s, Some (h, ss) => methods_from rest (Some (h, (ss ++ [s])%list))
      | FuncClose, Some (h, ss) =>
          {| header_of := h; body := ss |} :: methods_from rest None
      | _, _ => methods_from rest open
      end
  end.

Definition methods (items : list item) : list func_decl := methods_from items None.

Definition find_method (prog : list func_decl) (ty m : string) : option func_decl :=
  find (fun fd => String.eqb (recv_ty (header_of fd)) ty && String.eqb (name (header_of fd)) m) prog.

(** How a statement ends: the next one runs, or the method returns. *)
Inductive outcome : Type :=
| Next (ρ : env)
| Return (vs : list value).

Section Interpreter.

Context `{ext : Externals}.

(** [usermem.ByteOrder], and the byte order of the host's own integers. *)
Variable wire : ByteOrder.
Variable host : ByteOrder.

(** The declarations [type T nt] of the package: a newtype and the name of
    its underlying type. *)
Variable decls : list (string * string).

(** A call of method [m] of type [ty] on the receiver at address [a]. *)
Variable call : string -> string -> Z -> list value -> world -> result (list value * world).

Definition underlying (ty : string) : option prim :=
  match prim_of_name ty with
  | Some p => Some p
  | None =>
      match find (fun d => String.eqb ty (fst d)) decls with
      | Some d => prim_of_name (snd d)
      | None => None
      end
  end.

(** An integer in memory: [width p] bytes in the host's order. *)
Definition load (p : prim) (m : memory) (a : Z) : Z :=
  wrap p (@Uint host (read m a (width p))).

Definition store (p : prim) (m : memory) (a : Z) (z : Z) : memory :=
  write m a (@PutUint host (width p) z).

Definition one {A : Type} (r0 : result (list A * world)) : result (A * world) :=
  let* (vs, w) := r0 in
  match vs with
  | [v] => Ok (v, w)
  | _ => Stuck
  end.

(** [T(v)] for a scalar or newtype [T], and [uintptr(v)]. *)
Definition convert (ty : string) (v : value) : result value :=
  if String.eqb ty "uintptr" then
    match v with
    | VPtr a _ => Ok (VInt a)
    | VInt z => Ok (VInt (z mod modulus 8))
    | _ => Stuck
    end
  else
    match underlying ty, v with
    | Some p, VInt z => Ok (VInt (wrap p z))
    | _, _ => Stuck
    end.

(** [( *T)(v)] and [unsafe.Pointer(v)]: the same address under another
    type. *)
Definition convert_ptr (ty : string) (v : value) : result value :=
  match v with
  | VPtr a _ => Ok (VPtr a ty)
  | VNil => Ok (VPtr 0 ty)
  | VLocal x => Ok (VLocal x)
  | _ => Stuck
  end.

Definition byteorder_width (m : string) : option (bool * nat) :=
  switch m
    [ (["PutUint16"], Some (true, 2%nat));
      (["PutUint32"], Some (true, 4%nat));
      (["PutUint64"], Some (true, 8%nat));
      (["Uint16"], Some (false, 2%nat));
      (["Uint32"], Some (false, 4%nat));
      (["Uint64"], Some (false, 8%nat)) ]
    None.

(** [binary.ByteOrder]'s methods check the length of the slice first. *)
Definition call_byteorder (m : string) (args : list value) (w : world)
    : result (list value * world) :=
  match byteorder_width m, args with
  | Some (true, n), [VSlice s; VInt v] =>
      if Len s <? Z.of_nat n then Panic
      else Ok ([], set_mem w (write (mem w) (Data s) (@PutUint wire n v)))
  | Some (false, n), [VSlice s] =>
      if Len s <? Z.of_nat n then Panic
      else Ok ([VInt (@Uint wire (read (mem w) (Data s) n))], w)
  | _, _ => Stuck
  end.

Definition call_task (m : string) (args : list value) (w : world)
    : result (list value * world) :=
  match args with
  | [VInt addr; VSlice s] =>
      if String.eqb m "CopyOutBytes" then
        let res := CopyOutBytes (task w) addr (contents (mem w) s) in
        Ok ([VInt (fst (snd res)); VErr (snd (snd res))],
            {| mem := mem w; task := fst res; sink := sink w |})
      else if String.eqb m "CopyInBytes" then
        let res := CopyInBytes (task w) addr (Z.to_nat (Len s)) in
        Ok ([VInt (fst (snd (snd res))); VErr (snd (snd (snd res)))],
            {| mem := write (mem w) (Data s) (firstn (Z.to_nat (Len s)) (fst (snd res)));
               task := fst res; sink := sink w |})
      else Stuck
  | _ => Stuck
  end.

Definition call_writer (m : string) (args : list value) (w : world)
    : result (list value * world) :=
  match args with
  | [VSlice s] =>
      if String.eqb m "Write" then
        let res := Write (sink w) (contents (mem w) s) in
        Ok ([VInt (fst (snd res)); VErr (snd (snd res))],
            {| mem := mem w; task := task w; sink := fst res |})
      else Stuck
  | _ => Stuck
  end.

(** Modelled from the spec: [safecopy.CopyIn(dst, src)] and
    [safecopy.CopyOut(dst, src)] (package safecopy, outside the files at
    hand) are the raw bulk byte transfer between memory and a buffer.
    The call hands over the buffer and a bare address, so the bytes moved
    are as many as the buffer holds. *)
Definition call_package (pkg fn : string) (args : list value) (w : world)
    : option (result (list value * world)) :=
  if String.eqb pkg "unsafe" then
    Some (match args with
          | [v] => if String.eqb fn "Pointer"
                   then let* p := convert_ptr EmptyString v in Ok ([p], w)
                   else Stuck
          | _ => Stuck
          end)
  else if String.eqb pkg "runtime" then
    Some (if String.eqb fn "KeepAlive" then Ok ([], w) else Stuck)
  else if String.eqb pkg "safecopy" then
    Some (match args with
          | [VSlice dst; VPtr src _] =>
              if String.eqb fn "CopyIn" then
                Ok ([VInt (Len dst); VErr None],
                    set_mem w (write (mem w) (Data dst) (read (mem w) src (Z.to_nat (Len dst)))))
              else Stuck
          | [VPtr dst _; VSlice src] =>
              if String.eqb fn "CopyOut" then
                Ok ([VInt (Len src); VErr None],
                    set_mem w (write (mem w) dst (contents (mem w) src)))
              else Stuck
          | _ => Stuck
          end)
  else None.

Definition call_method (rv : value) (m : string) (args : list value) (w : world)
    : result (list value * world) :=
  match rv with
  | VByteOrder => call_byteorder m args w
  | VTask => call_task m args w
  | VWriter => call_writer m args w
  | VPtr a ty => call ty m a args w
  | _ => Stuck
  end.

(** [x.m(args)]: a method of the variable [x], or, when no variable has
    that name, a function of the package [x]. *)
Definition call_selector (x m : string) (args : list value) (ρ : env) (w : world)
    : result (list value * world) :=
  match lookup_var x ρ with
  | Some rv => call_method rv m args w
  | None =>
      match call_package x m args w with
      | Some res => res
      | None => Stuck
      end
  end.

Definition constant (x : string) : option value :=
  switch x
    [ (["nil"], Some VNil);
      (["true"], Some (VBool true));
      (["false"], Some (VBool false)) ]
    None.

Definition slice_to (s : slice) (hi : Z) : result slice :=
  if (0 <=? hi) && (hi <=? Cap s)
  then Ok {| Data := Data s; Len := hi; Cap := Cap s |}
  else Panic.

Definition slice_from (s : slice) (lo : Z) : result slice :=
  if (0 <=? lo) && (lo <=? Len s)
  then Ok {| Data := Data s + lo; Len := Len s - lo; Cap := Cap s - lo |}
  else Panic.

Definition in_bounds (s : slice) (i : Z) : bool := (0 <=? i) && (i <? Len s).

(** An expression gives the values of its results: one, except for a
    call. *)
Fixpoint eval (e : expr) (ρ : env) (w : world) {struct e} : result (list value * world) :=
  let args :=
    fix args (l : list expr) (w : world) : result (list value * world) :=
      match l with
      | [] => Ok ([], w)
      | a :: l' =>
          let* (v, w1) := one (eval a ρ w) in
          let* (vs, w2) := args l' w1 in
          Ok (v :: vs, w2)
      end in
  match e with
  | EId x =>
      match lookup_var x ρ with
      | Some v => Ok ([v], w)
      | None => match constant x with Some v => Ok ([v], w) | None => Stuck end
      end
  | EInt n => Ok ([VInt n], w)
  | EStar e1 =>
      let* (v, w1) := one (eval e1 ρ w) in
      match v with
      | VPtr a ty =>
          if a =? 0 then Panic
          else match underlying ty with
               | Some p => Ok ([VInt (load p (mem w1) a)], w1)
               | None => Stuck
               end
      | _ => Stuck
      end
  | EAddr e1 =>
      match e1 with
      | EId x => match lookup_var x ρ with Some _ => Ok ([VLocal x], w) | None => Stuck end
      | _ => Stuck
      end
  | EParen e1 => eval e1 ρ w
  | ESel e1 fld =>
      match e1 with
      | EId x =>
          if String.eqb x "usermem" && String.eqb fld "ByteOrder"
          then Ok ([VByteOrder], w) else Stuck
      | _ => Stuck
      end
  | EIndex e1 i =>
      let* (v, w1) := one (eval e1 ρ w) in
      let* (iv, w2) := one (eval i ρ w1) in
      match v, iv with
      | VSlice s, VInt k =>
          if in_bounds s k then Ok ([VInt (Bytes.to_Z (mem w2 (Data s + k)))], w2)
          else Panic
      | _, _ => Stuck
      end
  | ESliceTo e1 hi =>
      let* (v, w1) := one (eval e1 ρ w) in
      let* (hv, w2) := one (eval hi ρ w1) in
      match v, hv with
      | VSlice s, VInt k => let* s' := slice_to s k in Ok ([VSlice s'], w2)
      | _, _ => Stuck
      end
  | ESliceFrom e1 lo =>
      let* (v, w1) := one (eval e1 ρ w) in
      let* (lv, w2) := one (eval lo ρ w1) in
      match v, lv with
      | VSlice s, VInt k => let* s' := slice_from s k in Ok ([VSlice s'], w2)
      | _, _ => Stuck
      end
  | EXor a0 b0 =>
      let* (x, w1) := one (eval a0 ρ w) in
      let* (y, w2) := one (eval b0 ρ w1) in
      match x, y with
      | VInt x, VInt y => Ok ([VInt (Z.lxor x y)], w2)
      | _, _ => Stuck
      end
  | ECall fn l =>
      match fn with
      | EId ty =>
          let* (vs, w1) := args l w in
          match vs with
          | [v] => let* v' := convert ty v in Ok ([v'], w1)
          | _ => Stuck
          end
      | EParen (EStar te) =>
          let* (vs, w1) := args l w in
          match te, vs with
          | EId ty, [v] => let* v' := convert_ptr ty v in Ok ([v'], w1)
          | ESel (EId pkg) ty, [v] =>
              let* v' := convert_ptr (pkg ++ "." ++ ty) v in Ok ([v'], w1)
          | _, _ => Stuck
          end
      | ESel (EId x) m =>
          let* (vs, w1) := args l w in
          call_selector x m vs ρ w1
      | ESel re m =>
          let* (rv, w1) := one (eval re ρ w) in
          let* (vs, w2) := args l w1 in
          call_method rv m vs w2
      | _ => Stuck
      end
  end.

Definition eval1 (e : expr) (ρ : env) (w : world) : result (value * world) :=
  one (eval e ρ w).

Fixpoint eval_list (es : list expr) (ρ : env) (w : world) : result (list value * world) :=
  match es with
  | [] => Ok ([], w)
  | e :: es' =>
      let* (v, w1) := eval1 e ρ w in
      let* (vs, w2) := eval_list es' ρ w1 in
      Ok (v :: vs, w2)
  end.

Definition set_field (s : slice) (fld : string) (z : Z) : option slice :=
  switch fld
    [ (["Data"], Some {| Data := z; Len := Len s; Cap := Cap s |});
      (["Len"], Some {| Data := Data s; Len := z; Cap := Cap s |});
      (["Cap"], Some {| Data := Data s; Len := Len s; Cap := z |}) ]
    None.

Definition lift {A : Type} (o : option A) : result A :=
  match o with Some a => Ok a | None => Stuck end.

(** [lhs = v]: to a variable, to an element of a slice, through a pointer,
    or to a field of the slice header a pointer to a local slice gives. *)
Definition assign (lhs : expr) (v : value) (ρ : env) (w : world) : result (env * world) :=
  match lhs with
  | EId x => let* ρ' := lift (update_var x v ρ) in Ok (ρ', w)
  | EIndex e1 i =>
      let* (sv, w1) := eval1 e1 ρ w in
      let* (iv, w2) := eval1 i ρ w1 in
      match sv, iv, v with
      | VSlice s, VInt k, VInt z =>
          if in_bounds s k
          then Ok (ρ, set_mem w2 (write (mem w2) (Data s + k) [Bytes.of_Z z]))
          else Panic
      | _, _, _ => Stuck
      end
  | EStar e1 =>
      let* (pv, w1) := eval1 e1 ρ w in
      match pv, v with
      | VPtr a ty, VInt z =>
          if a =? 0 then Panic
          else let* p := lift (underlying ty) in
               Ok (ρ, set_mem w1 (store p (mem w1) a z))
      | _, _ => Stuck
      end
  | ESel (EId h) fld =>
      match lookup_var h ρ, v with
      | Some (VLocal x), VInt z =>
          match lookup_var x ρ with
          | Some (VSlice s) =>
              let* s' := lift (set_field s fld z) in
              let* ρ' := lift (update_var x (VSlice s') ρ) in
              Ok (ρ', w)
          | _ => Stuck
          end
      | _, _ => Stuck
      end
  | _ => Stuck
  end.

Fixpoint define (xs : list string) (vs : list value) (ρ : env) : option env :=
  match xs, vs with
  | [], [] => Some ρ
  | x :: xs', v :: vs' => define xs' vs' ((x, v) :: ρ)
  | _, _ => None
  end.

Definition exec_stmt (s : stmt) (ρ : env) (w : world) : result (outcome * world) :=
  match s with
  | SComment _ => Ok (Next ρ, w)
  | SAssign lhs rhs =>
      let* (v, w1) := eval1 rhs ρ w in
      let* (ρ', w2) := assign lhs v ρ w1 in
      Ok (Next ρ', w2)
  | SDefine xs rhs =>
      let* (vs, w1) := eval rhs ρ w in
      let* ρ' := lift (define xs vs ρ) in
      Ok (Next ρ', w1)
  | SVar x ty =>
      if String.eqb ty "[]byte"
      then Ok (Next ((x, VSlice {| Data := 0; Len := 0; Cap := 0 |}) :: ρ), w)
      else Stuck
  | SExpr e =>
      let* (_, w1) := eval e ρ w in
      Ok (Next ρ, w1)
  | SReturn es =>
      let* (vs, w1) := eval_list es ρ w in
      Ok (Return vs, w1)
  end.

Fixpoint exec (ss : list stmt) (ρ : env) (w : world) : result (outcome * world) :=
  match ss with
  | [] => Ok (Next ρ, w)
  | s :: ss' =>
      let* (o, w1) := exec_stmt s ρ w in
      match o with
      | Next ρ' => exec ss' ρ' w1
      | Return vs => Ok (Return vs, w1)
      end
  end.

End Interpreter.

(** *** Calls and programs *)

Section Run.

Context `{ext : Externals}.
Variable wire : ByteOrder.
Variable host : ByteOrder.
Variable decls : list (string * string).
Variable prog : list func_decl.

(** Method [m] of type [ty] on the receiver at address [a]: the parameters
    and the receiver are bound, the body runs, and what it returns is the
    result.  [fuel] bounds the depth of nested calls. *)
Fixpoint call (fuel : nat) (ty m : string) (a : Z) (args : list value) (w : world)
    : result (list value * world) :=
  match fuel with
  | O => OutOfFuel
  | S fuel' =>
      match find_method prog ty m with
      | None => Stuck
      | Some fd =>
          let h := header_of fd in
          let* ρ := lift (define (map fst (params h)) args [(recv h, VPtr a ty)]) in
          let* (o, w') := exec wire host decls (call fuel') (body fd) ρ w in
          match o with
          | Return vs => Ok (vs, w')
          | Next _ => Ok ([], w')
          end
      end
  end.

End Run.

(** The generator run for one declaration [type T nt], and the methods of a
    package of such declarations. *)
Definition generate (receiverName : TypeSpec -> string) (fset : FileSet)
    (T nt : Ident) : interfaceGenerator :=
  emitMarshallableForPrimitiveNewtype nt
    (newInterfaceGenerator receiverName {| TypeSpec_Name := T |} fset).

Definition decl_names (d : Ident * Ident) : string * string := (Name (fst d), Name (snd d)).

Definition program (receiverName : TypeSpec -> string) (fset : FileSet)
    (ds : list (Ident * Ident)) : list func_decl :=
  flat_map (fun d => methods (emitted (generate receiverName fset (fst d) (snd d)))) ds.

(** * Properties

    ** Memory and conversions *)

Lemma read_length m a n : List.length (read m a n) = n.
Proof. unfold read. now rewrite length_map, length_seq. Qed.

Lemma read_ext m m' a n :
  (forall i, 0 <= i < Z.of_nat n -> m (a + i) = m' (a + i)) ->
  read m a n = read m' a n.
Proof.
  intros H. unfold read. apply map_ext_in. intros i Hi.
  apply in_seq in Hi. apply H. lia.
Qed.

Lemma write_inside m a bs i :
  0 <= i < Z.of_nat (List.length bs) ->
  write m a bs (a + i) = nth (Z.to_nat i) bs Byte.x00.
Proof.
  intros H. unfold write.
  replace ((a <=? a + i) && (a + i <? a + Z.of_nat (List.length bs))) with true
    by (symmetry; apply andb_true_iff; split; [apply Z.leb_le | apply Z.ltb_lt]; lia).
  f_equal. lia.
Qed.

Lemma write_outside m a bs x :
  x < a \/ a + Z.of_nat (List.length bs) <= x ->
  write m a bs x = m x.
Proof.
  intros H. unfold write.
  replace ((a <=? x) && (x <? a + Z.of_nat (List.length bs))) with false; [reflexivity|].
  symmetry. apply andb_false_iff.
  destruct H; [left; apply Z.leb_gt | right; apply Z.ltb_ge]; lia.
Qed.

Lemma nth_read m a n i d : (i < n)%nat -> nth i (read m a n) d = m (a + Z.of_nat i).
Proof.
  intros Hi. unfold read.
  set (cell := fun i : nat => m (a + Z.of_nat i)).
  rewrite (nth_indep _ d (cell 0%nat)) by (rewrite length_map, length_seq; lia).
  rewrite map_nth, seq_nth by lia. reflexivity.
Qed.

Lemma read_write_prefix m a bs n :
  (n <= List.length bs)%nat -> read (write m a bs) a n = firstn n bs.
Proof.
  intros Hn. apply nth_ext with (d := Byte.x00) (d' := Byte.x00).
  - rewrite read_length, length_firstn. lia.
  - intros i Hi. rewrite read_length in Hi.
    rewrite nth_read by lia.
    rewrite write_inside by lia. rewrite Nat2Z.id.
    rewrite nth_firstn.
    destruct (Nat.ltb_spec i n); [reflexivity | lia].
Qed.

Lemma hd_read m a : hd Byte.x00 (read m a 1) = m a.
Proof. unfold read. cbn. now rewrite Z.add_0_r. Qed.

Lemma read_write_same m a bs : read (write m a bs) a (List.length bs) = bs.
Proof. rewrite read_write_prefix by lia. apply firstn_all. Qed.

Lemma read_firstn m a n k : (k <= n)%nat -> firstn k (read m a n) = read m a k.
Proof.
  intros H. unfold read. rewrite firstn_map. f_equal.
  replace n with (k + (n - k))%nat by lia.
  rewrite seq_app, firstn_app, length_seq, Nat.sub_diag, firstn_O, app_nil_r.
  rewrite firstn_all2 by (rewrite length_seq; lia). reflexivity.
Qed.

Ltac concrete_modulus :=
  change (modulus 1) with 256 in *;
  change (modulus 2) with 65536 in *;
  change (modulus 4) with 4294967296 in *;
  change (modulus 8) with 18446744073709551616 in *;
  change (256 / 2) with 128 in *;
  change (65536 / 2) with 32768 in *;
  change (4294967296 / 2) with 2147483648 in *;
  change (18446744073709551616 / 2) with 9223372036854775808 in *.

Lemma wrap_in_range p z : in_range p (wrap p z).
Proof.
  destruct p; unfold in_range, wrap; cbn [signed width andb]; concrete_modulus;
    try match goal with |- context [?a <=? ?b] => destruct (Z.leb_spec a b) end;
    Z.div_mod_to_equations; lia.
Qed.

Lemma wrap_id p z : in_range p z -> wrap p z = z.
Proof.
  destruct p; unfold in_range, wrap; cbn [signed width andb]; concrete_modulus; intros H;
    try match goal with |- context [?a <=? ?b] => destruct (Z.leb_spec a b) end;
    Z.div_mod_to_equations; lia.
Qed.

Lemma wrap_mod p z : wrap p z mod modulus (width p) = z mod modulus (width p).
Proof.
  unfold wrap.
  pose proof (modulus_pos (width p)) as Hm.
  destruct (signed p && (modulus (width p) / 2 <=? z mod modulus (width p))).
  - rewrite <- (Z.mod_add _ 1) by lia.
    replace (z mod modulus (width p) - modulus (width p) + 1 * modulus (width p))
      with (z mod modulus (width p)) by lia.
    apply Z.mod_mod. lia.
  - apply Z.mod_mod. lia.
Qed.

Lemma wrap_congr p z z' :
  z mod modulus (width p) = z' mod modulus (width p) -> wrap p z = wrap p z'.
Proof. unfold wrap. now intros ->. Qed.

Lemma wrap_wrap p z : wrap p (wrap p z) = wrap p z.
Proof. apply wrap_congr, wrap_mod. Qed.

(** The bits of a value are those of its unsigned reading. *)
Lemma wrap_same_width p q z :
  width p = width q -> wrap p (wrap q z) = wrap p z.
Proof. intros H. apply wrap_congr. rewrite H. apply wrap_mod. Qed.

Lemma of_Z_wrap q v : width q = 1%nat -> Bytes.of_Z (wrap q v) = Bytes.of_Z v.
Proof.
  intros H. rewrite <- (Bytes.of_Z_mod (wrap q v)), <- (Bytes.of_Z_mod v).
  pose proof (wrap_mod q v) as E. rewrite H in E.
  change (modulus 1) with 256 in E. now rewrite E.
Qed.

Lemma wrap_to_Z q b : q = Byte_ \/ q = Uint8 -> wrap q (Bytes.to_Z b) = Bytes.to_Z b.
Proof.
  intros H. apply wrap_id. pose proof (Bytes.to_Z_range b).
  destruct H; subst q; unfold in_range; cbn [signed width]; concrete_modulus; lia.
Qed.

Lemma wrap_Uint_read `{bo : ByteOrder} q m a :
  signed q = false -> wrap q (Uint (read m a (width q))) = Uint (read m a (width q)).
Proof.
  intros H. apply wrap_id. unfold in_range. rewrite H.
  pose proof (Uint_range (read m a (width q))) as Hr.
  now rewrite read_length in Hr.
Qed.

Lemma PutUint_mod `{bo : ByteOrder} n v : PutUint n (v mod modulus n) = PutUint n v.
Proof.
  rewrite <- (Uint_PutUint n v).
  rewrite <- (PutUint_length n v) at 1.
  apply PutUint_Uint.
Qed.

Lemma PutUint_congr `{bo : ByteOrder} n v v' :
  v mod modulus n = v' mod modulus n -> PutUint n v = PutUint n v'.
Proof. intros H. now rewrite <- (PutUint_mod n v), H, PutUint_mod. Qed.

Lemma PutUint_wrap `{bo : ByteOrder} q v :
  PutUint (width q) (wrap q v) = PutUint (width q) v.
Proof. apply PutUint_congr, wrap_mod. Qed.

(** ** Stepping through emitted code *)

Arguments wrap : simpl never.
Arguments load : simpl never.
Arguments store : simpl never.
Arguments read : simpl never.
Arguments write : simpl never.
Arguments contents : simpl never.
Arguments in_bounds : simpl never.
Arguments slice_to : simpl never.
Arguments slice_from : simpl never.
Arguments modulus : simpl never.
#[local] Arguments String.eqb !s1 !s2 : simpl nomatch.

(** A buffer with room for a scalar of type [p]. *)
Definition fits (p : prim) (s : slice) : Prop :=
  Z.of_nat (width p) <= Len s <= Cap s.

Lemma in_bounds_0 s : 0 < Len s -> in_bounds s 0 = true.
Proof. intros H. unfold in_bounds. apply andb_true_iff. split; [reflexivity | now apply Z.ltb_lt]. Qed.

Lemma slice_to_ok s hi :
  0 <= hi <= Cap s -> slice_to s hi = Ok {| Data := Data s; Len := hi; Cap := Cap s |}.
Proof.
  intros H. unfold slice_to.
  replace ((0 <=? hi) && (hi <=? Cap s)) with true; [reflexivity|].
  symmetry. apply andb_true_iff. split; apply Z.leb_le; lia.
Qed.

Lemma slice_from_ok s lo :
  0 <= lo <= Len s ->
  slice_from s lo = Ok {| Data := Data s + lo; Len := Len s - lo; Cap := Cap s - lo |}.
Proof.
  intros H. unfold slice_from.
  replace ((0 <=? lo) && (lo <=? Len s)) with true; [reflexivity|].
  symmetry. apply andb_true_iff. split; apply Z.leb_le; lia.
Qed.

Lemma fits_in_bounds p s : fits p s -> in_bounds s 0 = true.
Proof. unfold fits. intros H. apply in_bounds_0. destruct p; cbn in H; lia. Qed.

Lemma fits_slice_to p s :
  fits p s ->
  slice_to s (Z.of_nat (width p))
  = Ok {| Data := Data s; Len := Z.of_nat (width p); Cap := Cap s |}.
Proof. unfold fits. intros H. apply slice_to_ok. lia. Qed.

Lemma fits_slice_from p s :
  fits p s ->
  slice_from s (Z.of_nat (width p))
  = Ok {| Data := Data s + Z.of_nat (width p);
          Len := Len s - Z.of_nat (width p);
          Cap := Cap s - Z.of_nat (width p) |}.
Proof. unfold fits. intros H. apply slice_from_ok. lia. Qed.

Lemma nonzero_eqb a : a <> 0 -> (a =? 0) = false.
Proof. intros H. now apply Z.eqb_neq. Qed.

(** The type names Go declares itself, as far as the emitted code names
    them.  A declared newtype has another name. *)
Definition builtin_types : list string := (map prim_name prims ++ ["uintptr"])%list.

Definition is_builtin (s : string) : bool := existsb (String.eqb s) builtin_types.

Lemma not_builtin tn :
  is_builtin tn = false -> prim_of_name tn = None /\ String.eqb tn "uintptr" = false.
Proof.
  unfold is_builtin, builtin_types, prim_of_name, prims.
  cbn [map app existsb find prim_name]. intros H.
  repeat (apply orb_false_iff in H; destruct H as [?E H]).
  repeat match goal with E : _ = false |- _ => rewrite E; clear E end.
  split; reflexivity.
Qed.

Lemma not_builtin_prim tn : is_builtin tn = false -> prim_of_name tn = None.
Proof. intros H. apply (not_builtin tn H). Qed.

Lemma not_builtin_uintptr tn : is_builtin tn = false -> String.eqb tn "uintptr" = false.
Proof. intros H. apply (not_builtin tn H). Qed.

Lemma underlying_declared tn nm ds :
  is_builtin tn = false -> underlying ((tn, nm) :: ds) tn = prim_of_name nm.
Proof.
  intros H. unfold underlying. rewrite (not_builtin_prim _ H). cbn [find fst snd].
  now rewrite String.eqb_refl.
Qed.

Lemma convert_declared tn nm ds z :
  is_builtin tn = false ->
  convert ((tn, nm) :: ds) tn (VInt z)
  = match prim_of_name nm with
    | Some q => Ok (VInt (wrap q z))
    | None => Stuck
    end.
Proof.
  intros H. unfold convert.
  rewrite (not_builtin_uintptr _ H), (underlying_declared _ _ _ H).
  now destruct (prim_of_name nm).
Qed.

(** The names the emitted methods use for their own parameters, locals and
    packages.  A receiver name is chosen apart from them; with one of them
    the emitted method would not compile. *)
Definition reserved : list string :=
  ["dst"; "src"; "ptr"; "val"; "buf"; "hdr"; "len"; "err"; "inner"; "task"; "addr"; "w";
   "nil"; "true"; "false"; "unsafe"; "runtime"; "safecopy"; "usermem"; "reflect"].

Definition is_reserved (x : string) : bool := existsb (String.eqb x) reserved.

Lemma fresh_l x r0 : is_reserved x = true -> is_reserved r0 = false -> String.eqb x r0 = false.
Proof.
  intros Hx Hr. destruct (String.eqb x r0) eqn:E; [|reflexivity].
  apply String.eqb_eq in E. subst. congruence.
Qed.

Lemma fresh_r x r0 : is_reserved x = true -> is_reserved r0 = false -> String.eqb r0 x = false.
Proof. intros. rewrite String.eqb_sym. now apply fresh_l. Qed.

(** Rewrite with the boolean and option facts at hand. *)
Ltac use_facts :=
  repeat match goal with
  | |- context [String.eqb ?x ?x] => rewrite (String.eqb_refl x)
  | H : is_reserved ?r = false |- context [String.eqb ?x ?r] =>
      rewrite (fresh_l x r eq_refl H)
  | H : is_reserved ?r = false |- context [String.eqb ?r ?x] =>
      rewrite (fresh_r x r eq_refl H)
  | H : is_builtin ?tn = false |- context [underlying ((?tn, ?nm) :: ?ds) ?tn] =>
      rewrite (underlying_declared tn nm ds H)
  | H : is_builtin ?tn = false |- context [convert ((?tn, ?nm) :: ?ds) ?tn (VInt ?z)] =>
      rewrite (convert_declared tn nm ds z H)
  | |- context [Z.ltb ?a (Z.of_nat ?n)] =>
      let v := eval vm_compute in (Z.ltb a (Z.of_nat n)) in
      match v with
      | true => change (Z.ltb a (Z.of_nat n)) with true
      | false => change (Z.ltb a (Z.of_nat n)) with false
      end
  | H : forall a w, ?c ?ty "SizeBytes" a [] w = _ |- context [?c ?ty "SizeBytes" ?a0 [] ?w0] =>
      rewrite (H a0 w0)
  | H : ?x = true |- context [?x] => rewrite H
  | H : ?x = false |- context [?x] => rewrite H
  | H : ?x = Ok _ |- context [?x] => rewrite H
  | H : ?x = Some _ |- context [?x] => rewrite H
  | H : ?x = None |- context [?x] => rewrite H
  end.

(** What a buffer that [fits] allows, at the concrete width. *)
Ltac buffer_facts H :=
  let Hb := fresh "Hb" in
  let Hs := fresh "Hs" in
  let Hf := fresh "Hf" in
  pose proof (fits_in_bounds _ _ H) as Hb;
  pose proof (fits_slice_to _ _ H) as Hs;
  pose proof (fits_slice_from _ _ H) as Hf;
  lazy [width Z.of_nat Pos.of_succ_nat Pos.succ] in Hs, Hf.

Ltac go := repeat (progress (cbn; unfold eval1, one, lift, call_selector; use_facts)).

(** A generator writes methods of one receiver type; among them a method is
    found by its name. *)
Definition by_name (m : string) (fd : func_decl) : bool := String.eqb (name (header_of fd)) m.

Lemma find_method_own (own rest : list func_decl) (ty m : string) :
  Forall (fun fd => recv_ty (header_of fd) = ty) own ->
  find_method (own ++ rest) ty m
  = match find (by_name m) own with
    | Some fd => Some fd
    | None => find_method rest ty m
    end.
Proof.
  induction 1 as [|fd own Hfd _ IH]; [reflexivity|].
  unfold find_method in *. cbn [app find]. unfold by_name at 1.
  rewrite Hfd, String.eqb_refl. cbn [andb].
  destruct (String.eqb (name (header_of fd)) m); [reflexivity | exact IH].
Qed.

(** What a call gives once its body has run. *)
Definition returned `{Externals} (res : result (outcome * world)) : result (list value * world) :=
  let* (o, w') := res in
  match o with
  | Return vs => Ok (vs, w')
  | Next _ => Ok ([], w')
  end.

Lemma call_unfold `{Externals} wire host decls prog fuel ty m a args w fd ρ :
  find_method prog ty m = Some fd ->
  define (map fst (params (header_of fd))) args [(recv (header_of fd), VPtr a ty)] = Some ρ ->
  call wire host decls prog (S fuel) ty m a args w
  = returned (exec wire host decls (call wire host decls prog fuel) (body fd) ρ w).
Proof. intros Hf Hd. cbn [call]. rewrite Hf. cbn zeta. rewrite Hd. reflexivity. Qed.

Lemma exec_next `{Externals} wire host decls c s ss ρ w ρ' w' :
  exec_stmt wire host decls c s ρ w = Ok (Next ρ', w') ->
  exec wire host decls c (s :: ss) ρ w = exec wire host decls c ss ρ' w'.
Proof. intros H0. cbn [exec]. rewrite H0. reflexivity. Qed.

Lemma exec_return `{Externals} wire host decls c s ss ρ w vs w' :
  exec_stmt wire host decls c s ρ w = Ok (Return vs, w') ->
  exec wire host decls c (s :: ss) ρ w = Ok (Return vs, w').
Proof. intros H0. cbn [exec]. rewrite H0. reflexivity. Qed.

(** Enter a call of a generated method: pick the method out of the
    generated ones by its name and bind the arguments. *)
Ltac enter :=
  erewrite call_unfold;
  [ | rewrite find_method_own by (lazy; repeat constructor);
      match goal with
      | |- context [find ?sel (methods ?x)] =>
          let F := fresh "F" in set (F := find sel (methods x)); lazy in F; subst F
      end;
      reflexivity
    | reflexivity ];
  cbn [body];
  match goal with
  | |- context [exec _ _ _ ?c] =>
      let C := fresh "C" in set (C := c) in *; clearbody C
  end.

(** Run the next statement of the body. *)
Ltac step :=
  lazymatch goal with
  | |- context [exec _ _ _ _ (SReturn _ :: _) _ _] =>
      erewrite exec_return by (go; reflexivity)
  | |- context [exec _ _ _ _ (_ :: _) _ _] =>
      erewrite exec_next by (go; reflexivity)
  end.

Ltac run_body := repeat step; cbn [exec returned bind].

(** ** A newtype on a primitive: what each generated method does *)

(** The wire form of a scalar on the field-by-field path, in the words of the
    byte-order rule: a scalar wider than one byte goes through the one byte
    order [wire]; a one-byte scalar is its own byte. *)
Definition encode (wire : ByteOrder) (p : prim) (x : Z) : list byte :=
  match width p with
  | 1%nat => [Bytes.of_Z x]
  | n => @PutUint wire n x
  end.

Definition decode (wire : ByteOrder) (p : prim) (bs : list byte) : Z :=
  match width p with
  | 1%nat => wrap p (Bytes.to_Z (hd Byte.x00 bs))
  | _ => wrap p (@Uint wire bs)
  end.

(** The view the last three methods build: the instance's own bytes. *)
Definition instance_view (p : prim) (a : Z) : slice :=
  {| Data := a; Len := Z.of_nat (width p); Cap := Z.of_nat (width p) |}.

Section NewtypeOnPrimitive.

Context `{ext : Externals}.
Variable wire : ByteOrder.
Variable host : ByteOrder.
Variable fset : FileSet.

(** The declaration [type tn p], the receiver name [r] the generator was
    given for it, and the methods of the rest of the package. *)
Variable tn : string.
Variable r : string.
Variable tpos npos : Pos.
Variable p : prim.
Variable rest : list func_decl.
Variable more : list (string * string).

Let T := {| Name := tn; NamePos := tpos |}.
Let nt := {| Name := prim_name p; NamePos := npos |}.
Let prog := (methods (emitted (generate (fun _ => r) fset T nt)) ++ rest)%list.
Let decls := (tn, prim_name p) :: more.
Let run := call wire host decls prog.

Hypothesis r_fresh : is_reserved r = false.
Hypothesis tn_declared : is_builtin tn = false.

Lemma SizeBytes_spec fuel a w :
  run (S fuel) tn "SizeBytes" a [] w = Ok ([VInt (Z.of_nat (width p))], w).
Proof using r_fresh tn_declared.
  subst run prog decls nt T. destruct p; enter; run_body; reflexivity.
Qed.

Lemma Packed_spec fuel a w :
  run (S fuel) tn "Packed" a [] w = Ok ([VBool true], w).
Proof using r_fresh tn_declared.
  subst run prog decls nt T. destruct p; enter; run_body; reflexivity.
Qed.

Lemma MarshalBytes_spec fuel a w dst :
  a <> 0 -> fits p dst ->
  run (S fuel) tn "MarshalBytes" a [VSlice dst] w
  = Ok ([], set_mem w (write (mem w) (Data dst) (encode wire p (load host p (mem w) a)))).
Proof using r_fresh tn_declared.
  intros Ha Hd. apply nonzero_eqb in Ha.
  subst run prog decls nt T. destruct p.
  all: buffer_facts Hd.
  all: enter; run_body.
  all: unfold encode, set_mem; cbn [width]; rewrite ?Z.add_0_r.
  all: rewrite ?(of_Z_wrap Byte_), ?(PutUint_wrap Uint16), ?(PutUint_wrap Uint32),
         ?(PutUint_wrap Uint64) by reflexivity; reflexivity.
Qed.

Lemma UnmarshalBytes_spec fuel a w src :
  a <> 0 -> fits p src ->
  run (S fuel) tn "UnmarshalBytes" a [VSlice src] w
  = Ok ([], set_mem w (store host p (mem w) a
                         (decode wire p (read (mem w) (Data src) (width p))))).
Proof using r_fresh tn_declared.
  intros Ha Hd. apply nonzero_eqb in Ha.
  subst run prog decls nt T. destruct p.
  all: buffer_facts Hd.
  all: enter; run_body.
  all: unfold decode, set_mem; cbn [width]; rewrite ?Z.add_0_r.
  all: rewrite ?wrap_wrap, ?hd_read; reflexivity.
Qed.


Lemma MarshalUnsafe_spec fuel a w dst :
  run (S fuel) tn "MarshalUnsafe" a [VSlice dst] w
  = Ok ([], set_mem w (write (mem w) (Data dst) (read (mem w) a (Z.to_nat (Len dst))))).
Proof using r_fresh tn_declared.
  subst run prog decls nt T. destruct p; enter; run_body; reflexivity.
Qed.

Lemma UnmarshalUnsafe_spec fuel a w src :
  run (S fuel) tn "UnmarshalUnsafe" a [VSlice src] w
  = Ok ([], set_mem w (write (mem w) a (contents (mem w) src))).
Proof using r_fresh tn_declared.
  subst run prog decls nt T. destruct p; enter; run_body; reflexivity.
Qed.



Lemma WriteTo_spec fuel a w :
  run (S (S fuel)) tn "WriteTo" a [VWriter] w
  = let* (vs, w') := call_writer "Write" [VSlice (instance_view p a)] w in
    match vs with
    | [VInt n; err] => Ok ([VInt (wrap Int64 n); err], w')
    | _ => Stuck
    end.
Proof using r_fresh tn_declared.
  pose proof (fun a w => SizeBytes_spec fuel a w) as Hsize.
  subst run prog decls nt T. destruct p; enter; run_body.
  all: rewrite Z.lxor_0_r; reflexivity.
Qed.

End NewtypeOnPrimitive.

(** ** A scalar field: what the emitted statements do *)

Fixpoint stmts_of (items : list item) : list stmt :=
  match items with
  | [] => []
  | Stmt s :: rest => s :: stmts_of rest
  | _ :: rest => stmts_of rest
  end.

(** A generator that has written nothing yet, and the statements a
    generator method writes into it. *)
Definition blank : interfaceGenerator :=
  {| buffer := {| b := []; indent := 0 |};
     t := {| TypeSpec_Name := {| Name := EmptyString; NamePos := 0 |} |};
     r := EmptyString;
     f := fun _ => {| Filename := EmptyString; Line := 0; Column := 0 |};
     is_ := ∅; ms := ∅; as_ := ∅ |}.

Definition written (k : gen) : list stmt := stmts_of (emitted (k blank)).

(** The buffer variable behind a scalar of type [p]. *)
Definition advance (p : prim) (s : slice) : slice :=
  {| Data := Data s + Z.of_nat (width p);
     Len := Len s - Z.of_nat (width p);
     Cap := Cap s - Z.of_nat (width p) |}.

Section ScalarField.

Context `{ext : Externals}.
Variable wire : ByteOrder.
Variable host : ByteOrder.
Variable decls : list (string * string).
Variable c : string -> string -> Z -> list value -> world -> result (list value * world).

(** The field and the buffer variable are two variables. *)
Variable accessor bufVar : string.
Hypothesis two_variables : String.eqb bufVar accessor = false.

Variable p : prim.

Ltac straight_line :=
  unfold written;
  match goal with
  | |- context [stmts_of ?x] =>
      let S := fresh "S" in set (S := stmts_of x); lazy in S; subst S
  end.

Lemma marshalScalar_spec x s w :
  fits p s ->
  exec wire host decls c (written (marshalScalar accessor (prim_name p) bufVar))
    [(accessor, VInt x); (bufVar, VSlice s)] w
  = Ok (Next [(accessor, VInt x); (bufVar, VSlice (advance p s))],
        set_mem w (write (mem w) (Data s) (encode wire p x))).
Proof using two_variables.
  intros Hd. destruct p.
  all: buffer_facts Hd.
  all: straight_line; run_body.
  all: unfold encode, advance, set_mem; cbn [width]; rewrite ?Z.add_0_r.
  all: rewrite ?(of_Z_wrap Byte_), ?(PutUint_wrap Uint16), ?(PutUint_wrap Uint32),
         ?(PutUint_wrap Uint64) by reflexivity; reflexivity.
Qed.

Lemma unmarshalScalar_spec x s w :
  fits p s ->
  exec wire host decls c (written (unmarshalScalar accessor (prim_name p) bufVar))
    [(accessor, VInt x); (bufVar, VSlice s)] w
  = Ok (Next [(accessor, VInt (decode wire p (read (mem w) (Data s) (width p))));
              (bufVar, VSlice (advance p s))], w).
Proof using two_variables.
  intros Hd. destruct p.
  all: buffer_facts Hd.
  all: straight_line; run_body.
  all: unfold decode, advance, set_mem; cbn [width]; rewrite ?Z.add_0_r.
  all: rewrite ?hd_read, ?(wrap_to_Z Byte_), ?(wrap_Uint_read Uint16),
         ?(wrap_Uint_read Uint32), ?(wrap_Uint_read Uint64) by auto; reflexivity.
Qed.

End ScalarField.

(** ** Case analysis on a type name *)

Lemma prim_of_name_name p : prim_of_name (prim_name p) = Some p.
Proof. destruct p; reflexivity. Qed.

Lemma prim_of_name_Some typ p : prim_of_name typ = Some p -> typ = prim_name p.
Proof.
  unfold prim_of_name. intros H. apply find_some in H as [_ H].
  now apply String.eqb_eq in H.
Qed.

Lemma prim_of_name_None typ p : prim_of_name typ = None -> String.eqb typ (prim_name p) = false.
Proof.
  unfold prim_of_name. intros H.
  apply (find_none _ _ H p). destruct p; cbn; tauto.
Qed.

(** A type name is one of the nine primitives, or it equals none of them. *)
Ltac by_type typ :=
  let E := fresh "E" in
  destruct (prim_of_name typ) as [?p|] eqn:E;
  [ apply prim_of_name_Some in E; subst typ
  | pose proof (prim_of_name_None typ Int8 E);
    pose proof (prim_of_name_None typ Uint8 E);
    pose proof (prim_of_name_None typ Byte_ E);
    pose proof (prim_of_name_None typ Int16 E);
    pose proof (prim_of_name_None typ Uint16 E);
    pose proof (prim_of_name_None typ Int32 E);
    pose proof (prim_of_name_None typ Uint32 E);
    pose proof (prim_of_name_None typ Int64 E);
    pose proof (prim_of_name_None typ Uint64 E);
    cbn [prim_name] in * ].

(** Take the default of a [switch] none of whose labels is the value. *)
Ltac default_branch :=
  unfold switch; cbn [existsb];
  repeat match goal with
  | H : String.eqb ?x ?y = false |- context [String.eqb ?x ?y] => rewrite H
  end;
  cbn [orb].

(** ** The validator *)

Definition aborts (v : verdict) : bool :=
  match v with
  | Aborted _ _ => true
  | _ => false
  end.

(** Where a diagnostic points. *)
Definition diagnostic (v : verdict) : option (Position * string) :=
  match v with
  | Passed => None
  | PassedWithDebug p msg => Some (p, msg)
  | Aborted p msg => Some (p, msg)
  end.

(** The names the validator turns away. *)
Definition rejected_names : list string := ["int"; "uint"; "string"].

Lemma validate_primitive g p pos :
  validatePrimitiveNewtype g {| Name := prim_name p; NamePos := pos |} = Passed.
Proof. destruct p; reflexivity. Qed.

(** C6. Validation of a newtype's underlying type aborts, with a diagnostic
    at the position of the offending identifier that names the type, exactly
    when the name is [int], [uint] (ambiguous width) or [string]
    (dynamically sized); each of the nine fixed-width scalars passes in
    silence; any other name passes, with a debug note that it will be
    dispatched through marshal.Marshallable. *)
Theorem validatePrimitiveNewtype_rejects_exactly (g : interfaceGenerator) (t0 : Ident) :
  aborts (validatePrimitiveNewtype g t0) = existsb (String.eqb (Name t0)) rejected_names
  /\ (forall p pos, validatePrimitiveNewtype g {| Name := prim_name p; NamePos := pos |} = Passed)
  /\ validatePrimitiveNewtype g t0
     = match prim_of_name (Name t0) with
       | Some _ => Passed
       | None =>
           if String.eqb (Name t0) "int" then
             Aborted (f g (NamePos t0)) "Type 'int' has ambiguous width, use int32 or int64"
           else if String.eqb (Name t0) "uint" then
             Aborted (f g (NamePos t0)) "Type 'uint' has ambiguous width, use uint32 or uint64"
           else if String.eqb (Name t0) "string" then
             Aborted (f g (NamePos t0))
               "Type 'string' is dynamically-sized and cannot be marshalled, use a fixed size byte array '[...]byte' instead"
           else
             PassedWithDebug (f g (NamePos t0))
               ("Found derived type '" ++ Name t0
                  ++ "', will attempt dispatch via marshal.Marshallable." ++ newline)
       end.
Proof.
  assert (Hshape : validatePrimitiveNewtype g t0
     = match prim_of_name (Name t0) with
       | Some _ => Passed
       | None =>
           if String.eqb (Name t0) "int" then
             Aborted (f g (NamePos t0)) "Type 'int' has ambiguous width, use int32 or int64"
           else if String.eqb (Name t0) "uint" then
             Aborted (f g (NamePos t0)) "Type 'uint' has ambiguous width, use uint32 or uint64"
           else if String.eqb (Name t0) "string" then
             Aborted (f g (NamePos t0))
               "Type 'string' is dynamically-sized and cannot be marshalled, use a fixed size byte array '[...]byte' instead"
           else
             PassedWithDebug (f g (NamePos t0))
               ("Found derived type '" ++ Name t0
                  ++ "', will attempt dispatch via marshal.Marshallable." ++ newline)
       end).
  { destruct t0 as [nm pos]. cbn [Name NamePos]. unfold validatePrimitiveNewtype.
    cbn [Name NamePos].
    destruct (prim_of_name nm) as [p|] eqn:E.
    - apply prim_of_name_Some in E. subst nm. destruct p; reflexivity.
    - pose proof (fun p => prim_of_name_None nm p E) as Hn.
      pose proof (Hn Int8); pose proof (Hn Uint8); pose proof (Hn Byte_);
      pose proof (Hn Int16); pose proof (Hn Uint16); pose proof (Hn Int32);
      pose proof (Hn Uint32); pose proof (Hn Int64); pose proof (Hn Uint64).
      cbn [prim_name] in *. default_branch.
      destruct (String.eqb nm "int"); [reflexivity|].
      destruct (String.eqb nm "uint"); [reflexivity|].
      destruct (String.eqb nm "string"); reflexivity. }
  split; [|split].
  - rewrite Hshape. unfold rejected_names. cbn [existsb].
    destruct (prim_of_name (Name t0)) as [p|] eqn:E.
    + apply prim_of_name_Some in E. rewrite E. destruct p; reflexivity.
    + destruct (String.eqb (Name t0) "int"); [reflexivity|].
      destruct (String.eqb (Name t0) "uint"); [reflexivity|].
      destruct (String.eqb (Name t0) "string"); reflexivity.
  - intros p pos. apply validate_primitive.
  - exact Hshape.
Qed.

(** ** The potentially-non-packed set *)

Lemma marshalScalar_as accessor typ bufVar g :
  as_ (marshalScalar accessor typ bufVar g) = as_ g.
Proof.
  unfold marshalScalar. by_type typ.
  - destruct p; reflexivity.
  - default_branch. reflexivity.
Qed.

Lemma unmarshalScalar_as accessor typ bufVar g :
  as_ (unmarshalScalar accessor typ bufVar g)
  = match prim_of_name typ with
    | Some _ => as_ g
    | None => {[accessor]} ∪ as_ g
    end.
Proof.
  unfold unmarshalScalar. by_type typ.
  - destruct p; reflexivity.
  - default_branch. reflexivity.
Qed.

Lemma marshalPrimitiveScalar_as accessor typ bufVar g :
  as_ (marshalPrimitiveScalar accessor typ bufVar g) = as_ g.
Proof.
  unfold marshalPrimitiveScalar. by_type typ.
  - destruct p; reflexivity.
  - default_branch. reflexivity.
Qed.

Lemma unmarshalPrimitiveScalar_as accessor typ bufVar typeCast g :
  as_ (unmarshalPrimitiveScalar accessor typ bufVar typeCast g) = as_ g.
Proof.
  unfold unmarshalPrimitiveScalar. by_type typ.
  - destruct p; reflexivity.
  - default_branch. reflexivity.
Qed.

Lemma emitMarshallableForPrimitiveNewtype_as nt g :
  as_ (emitMarshallableForPrimitiveNewtype nt g) = as_ g.
Proof.
  destruct nt as [nm pos].
  unfold emitMarshallableForPrimitiveNewtype, scalarSize, marshalPrimitiveScalar,
    unmarshalPrimitiveScalar.
  cbn [Name]. by_type nm.
  - destruct p; reflexivity.
  - default_branch. reflexivity.
Qed.

(** A generation run: the calls made on one generator, in order. *)
Inductive generator_call : Type :=
| CallMarshalScalar (accessor typ bufVar : string)
| CallUnmarshalScalar (accessor typ bufVar : string)
| CallMarshalPrimitiveScalar (accessor typ bufVar : string)
| CallUnmarshalPrimitiveScalar (accessor typ bufVar typeCast : string)
| CallEmitMarshallableForPrimitiveNewtype (nt : Ident)
| CallShift (bufVar : string) (n : Z)
| CallShiftDynamic (bufVar name0 : string)
| CallRecordUsedImport (i : string)
| CallRecordUsedMarshallable (m : string).

Definition perform (c : generator_call) : gen :=
  match c with
  | CallMarshalScalar a ty bv => marshalScalar a ty bv
  | CallUnmarshalScalar a ty bv => unmarshalScalar a ty bv
  | CallMarshalPrimitiveScalar a ty bv => marshalPrimitiveScalar a ty bv
  | CallUnmarshalPrimitiveScalar a ty bv tc => unmarshalPrimitiveScalar a ty bv tc
  | CallEmitMarshallableForPrimitiveNewtype nt => emitMarshallableForPrimitiveNewtype nt
  | CallShift bv n => shift bv n
  | CallShiftDynamic bv nm => shiftDynamic bv nm
  | CallRecordUsedImport i => recordUsedImport i
  | CallRecordUsedMarshallable m => recordUsedMarshallable m
  end.

Definition generation_run (calls : list generator_call) (g : interfaceGenerator)
    : interfaceGenerator :=
  fold_left (fun g0 c => perform c g0) calls g.

(** The accessors a run hands to [unmarshalScalar] with a type outside the
    nine primitives. *)
Fixpoint decoded_non_primitives (calls : list generator_call) : gset string :=
  match calls with
  | [] => ∅
  | CallUnmarshalScalar a ty _ :: rest =>
      match prim_of_name ty with
      | Some _ => decoded_non_primitives rest
      | None => {[a]} ∪ decoded_non_primitives rest
      end
  | _ :: rest => decoded_non_primitives rest
  end.

Lemma perform_as c g :
  as_ (perform c g) = decoded_non_primitives [c] ∪ as_ g.
Proof.
  destruct c; cbn [perform decoded_non_primitives];
    rewrite ?marshalScalar_as, ?unmarshalScalar_as, ?marshalPrimitiveScalar_as,
      ?unmarshalPrimitiveScalar_as, ?emitMarshallableForPrimitiveNewtype_as;
    try (cbn; set_solver).
  destruct (prim_of_name typ); set_solver.
Qed.

Lemma decoded_non_primitives_cons c calls :
  decoded_non_primitives (c :: calls)
  = decoded_non_primitives [c] ∪ decoded_non_primitives calls.
Proof.
  destruct c; cbn [decoded_non_primitives]; try set_solver.
  destruct (prim_of_name typ); set_solver.
Qed.

(** C10. The potentially-non-packed set is filled on the decode side only:
    [unmarshalScalar] adds the accessor exactly when the type is outside the
    nine fixed-width primitives, [marshalScalar] never adds, whatever the
    type; and over any generation run the set grows by exactly the accessors
    [unmarshalScalar] was given with such a type. *)
Theorem potentially_non_packed_only_on_decode
    (accessor typ bufVar : string) (calls : list generator_call) (g : interfaceGenerator) :
  as_ (unmarshalScalar accessor typ bufVar g)
  = match prim_of_name typ with
    | Some _ => as_ g
    | None => {[accessor]} ∪ as_ g
    end
  /\ as_ (marshalScalar accessor typ bufVar g) = as_ g
  /\ as_ (generation_run calls g) = decoded_non_primitives calls ∪ as_ g.
Proof.
  split; [|split].
  - apply unmarshalScalar_as.
  - apply marshalScalar_as.
  - revert g. induction calls as [|c calls IH]; intros g.
    + cbn. set_solver.
    + cbn [generation_run fold_left]. fold (generation_run calls (perform c g)).
      rewrite IH, perform_as, (decoded_non_primitives_cons c calls). set_solver.
Qed.

(** ** The wire form and the memory form of a scalar *)

Lemma encode_length wire p x : List.length (encode wire p x) = width p.
Proof. unfold encode. destruct p; cbn [width]; try reflexivity; apply PutUint_length. Qed.

Lemma decode_encode wire p x : decode wire p (encode wire p x) = wrap p x.
Proof.
  unfold decode, encode.
  destruct p; cbn [width hd];
    rewrite ?Bytes.to_of_Z, ?Uint_PutUint; apply wrap_congr; cbn [width];
    concrete_modulus; apply Z.mod_mod; lia.
Qed.

Lemma load_wrap host p m a : wrap p (load host p m a) = load host p m a.
Proof. unfold load. apply wrap_wrap. Qed.

(** The bytes of an instance are the host form of its value. *)
Lemma store_load_bytes host p m a :
  @PutUint host (width p) (load host p m a) = read m a (width p).
Proof.
  unfold load. rewrite PutUint_wrap.
  rewrite <- (read_length m a (width p)) at 1. apply PutUint_Uint.
Qed.

Lemma read_store host p m a z : read (store host p m a z) a (width p) = @PutUint host (width p) z.
Proof.
  unfold store. rewrite <- (PutUint_length (width p) z) at 2. apply read_write_same.
Qed.

Lemma load_store host p m a z : load host p (store host p m a z) a = wrap p z.
Proof.
  unfold load. rewrite read_store, Uint_PutUint. apply wrap_congr, Z.mod_mod.
  pose proof (modulus_pos (width p)). lia.
Qed.

Lemma read_encoded wire p m a x : read (write m a (encode wire p x)) a (width p) = encode wire p x.
Proof. rewrite <- (encode_length wire p x) at 1. apply read_write_same. Qed.

(** ** The operations generated for a newtype on a primitive *)

(** Collaborators to run examples against: a task whose address space takes
    two bytes and then faults, and yields question marks; a sink that keeps
    what it is given. *)
Definition faulting : Externals := {|
  task_state := list (Z * list byte);
  sink_state := list byte;
  CopyOutBytes := fun t0 addr bs =>
    ((t0 ++ [(addr, firstn 2 bs)])%list, (Z.of_nat (Nat.min 2 (List.length bs)), Some "EFAULT"));
  CopyInBytes := fun t0 addr n =>
    (t0, (repeat Byte.x3f (Nat.min 2 n), (Z.of_nat (Nat.min 2 n), Some "EFAULT")));
  Write := fun k bs => ((k ++ bs)%list, (Z.of_nat (List.length bs), None))
|}.

(** The declaration [type Uid uint32] with receiver [u], an instance
    [01 02 03 04] at address 100 followed by [aa bb cc dd], and a buffer at
    address 200. *)
Module Example.

Definition fset : FileSet := fun pos => {| Filename := "uid.go"; Line := 1; Column := pos |}.
Definition Uid : Ident := {| Name := "Uid"; NamePos := 6 |}.
Definition uint32 : Ident := {| Name := "uint32"; NamePos := 10 |}.
Definition decls : list (string * string) := [("Uid", "uint32")].
Definition prog : list func_decl :=
  (methods (emitted (generate (fun _ => "u") fset Uid uint32)) ++ [])%list.

Definition memory0 : memory :=
  write (fun _ => Byte.x00) 100
    [Byte.x01; Byte.x02; Byte.x03; Byte.x04; Byte.xaa; Byte.xbb; Byte.xcc; Byte.xdd].

Definition world0 : @world faulting :=
  {| mem := memory0;
     task := (@nil (Z * list byte) : @task_state faulting);
     sink := (@nil byte : @sink_state faulting) |}.

Definition buffer4 : slice := {| Data := 200; Len := 4; Cap := 4 |}.
Definition buffer8 : slice := {| Data := 200; Len := 8; Cap := 8 |}.

Definition run := @call faulting LittleEndian LittleEndian decls prog.

End Example.

Section GeneratedOperations.

Context `{ext : Externals}.
Variable wire : ByteOrder.
Variable host : ByteOrder.
Variable fset : FileSet.
Variable tn : string.
Variable r : string.
Variable tpos npos : Pos.
Variable p : prim.
Variable rest : list func_decl.
Variable more : list (string * string).

Let T := {| Name := tn; NamePos := tpos |}.
Let nt := {| Name := prim_name p; NamePos := npos |}.
Let prog := (methods (emitted (generate (fun _ => r) fset T nt)) ++ rest)%list.
Let decls := (tn, prim_name p) :: more.
Let run := call wire host decls prog.

Hypothesis r_fresh : is_reserved r = false.
Hypothesis tn_declared : is_builtin tn = false.

(** C7. SizeBytes() of a newtype on a fixed-width scalar is the width the
    generator looked up with scalarSize, one of 1, 2, 4 and 8: the same
    value for every receiver, in every state of memory, at every call, and
    the call leaves the state as it was. *)
Theorem SizeBytes_is_constant :
  exists n : Z,
    scalarSize nt = (n, false)
    /\ n = Z.of_nat (width p)
    /\ In n [1; 2; 4; 8]
    /\ forall fuel a w, run (S fuel) tn "SizeBytes" a [] w = Ok ([VInt n], w).
Proof using r_fresh tn_declared.
  exists (Z.of_nat (width p)). repeat split.
  - subst nt. destruct p; reflexivity.
  - destruct p; cbn; tauto.
  - intros fuel a w. apply SizeBytes_spec; assumption.
Qed.

(** C1. Unmarshal is a left inverse of marshal.  For a newtype on any of the
    nine fixed-width scalars, UnmarshalBytes run on the buffer MarshalBytes
    filled gives the receiving instance the bytes, and so the value, of the
    marshalled one; for a scalar field, the statements unmarshalScalar
    emits read back the value the statements marshalScalar emits wrote. *)
Theorem unmarshal_inverts_marshal (fuel : nat) (a a' : Z) (buf : slice) (w : world)
    (accessor bufVar : string) (x y : Z)
    (c : string -> string -> Z -> list value -> world -> result (list value * world)) :
  a <> 0 -> a' <> 0 -> fits p buf ->
  String.eqb bufVar accessor = false -> in_range p x ->
  (exists w1 w2,
     run (S fuel) tn "MarshalBytes" a [VSlice buf] w = Ok ([], w1)
     /\ run (S fuel) tn "UnmarshalBytes" a' [VSlice buf] w1 = Ok ([], w2)
     /\ read (mem w2) a' (width p) = read (mem w) a (width p)
     /\ load host p (mem w2) a' = load host p (mem w) a)
  /\ (exists w1,
     exec wire host decls c (written (marshalScalar accessor (prim_name p) bufVar))
       [(accessor, VInt x); (bufVar, VSlice buf)] w
     = Ok (Next [(accessor, VInt x); (bufVar, VSlice (advance p buf))], w1)
     /\ exec wire host decls c (written (unmarshalScalar accessor (prim_name p) bufVar))
          [(accessor, VInt y); (bufVar, VSlice buf)] w1
        = Ok (Next [(accessor, VInt x); (bufVar, VSlice (advance p buf))], w1)).
Proof using r_fresh tn_declared.
  intros Ha Ha' Hbuf Hvars Hx. split.
  - eexists _, _. split; [|split].
    + apply MarshalBytes_spec; assumption.
    + apply UnmarshalBytes_spec; assumption.
    + cbn [mem set_mem].
      rewrite read_encoded, decode_encode, load_wrap.
      assert (Hbytes : read (store host p (write (mem w) (Data buf)
                               (encode wire p (load host p (mem w) a))) a'
                               (load host p (mem w) a)) a' (width p)
                       = read (mem w) a (width p))
        by (rewrite read_store; apply store_load_bytes).
      split; [exact Hbytes|]. unfold load at 1. now rewrite Hbytes.
  - eexists. split.
    + apply marshalScalar_spec; assumption.
    + rewrite unmarshalScalar_spec by assumption. cbn [mem set_mem].
      rewrite read_encoded, decode_encode, (wrap_id p x Hx). reflexivity.
Qed.

(** C2. A newtype on a fixed-width scalar is always packed, and its marshal
    and unmarshal are the scalar's own: Packed() answers true for every
    receiver and state; MarshalBytes puts into the buffer the very bytes the
    scalar field statements put there for the instance's value, as many as
    the scalar is wide and no more; UnmarshalBytes stores into the instance
    the value the scalar field statements read. *)
Theorem newtype_reuses_scalar_codec (fuel : nat) (a : Z) (buf : slice) (w : world)
    (accessor bufVar : string) (x0 : Z)
    (c : string -> string -> Z -> list value -> world -> result (list value * world)) :
  a <> 0 -> fits p buf -> String.eqb bufVar accessor = false ->
  (forall a' w', run (S fuel) tn "Packed" a' [] w' = Ok ([VBool true], w'))
  /\ (exists bs,
       List.length bs = width p
       /\ run (S fuel) tn "MarshalBytes" a [VSlice buf] w
          = Ok ([], set_mem w (write (mem w) (Data buf) bs))
       /\ exec wire host decls c (written (marshalScalar accessor (prim_name p) bufVar))
            [(accessor, VInt (load host p (mem w) a)); (bufVar, VSlice buf)] w
          = Ok (Next [(accessor, VInt (load host p (mem w) a));
                      (bufVar, VSlice (advance p buf))],
                set_mem w (write (mem w) (Data buf) bs)))
  /\ (exists v,
       run (S fuel) tn "UnmarshalBytes" a [VSlice buf] w
       = Ok ([], set_mem w (store host p (mem w) a v))
       /\ exec wire host decls c (written (unmarshalScalar accessor (prim_name p) bufVar))
            [(accessor, VInt x0); (bufVar, VSlice buf)] w
          = Ok (Next [(accessor, VInt v); (bufVar, VSlice (advance p buf))], w)).
Proof using r_fresh tn_declared.
  intros Ha Hbuf Hvars. split; [|split].
  - intros a' w'. apply Packed_spec; assumption.
  - exists (encode wire p (load host p (mem w) a)). split; [apply encode_length|]. split.
    + apply MarshalBytes_spec; assumption.
    + apply marshalScalar_spec; assumption.
  - exists (decode wire p (read (mem w) (Data buf) (width p))). split.
    + apply UnmarshalBytes_spec; assumption.
    + apply unmarshalScalar_spec; assumption.
Qed.

(** C3. On the field-by-field path there is one byte order.  Whatever the
    order [wire] that usermem.ByteOrder names and whatever the host's own,
    a scalar of two, four or eight bytes is written as [PutUint] of that one
    order and read back with its [Uint], by the scalar field statements and
    by the newtype methods alike; a scalar of one byte is written as its own
    byte and read back from it, with no byte order involved. *)
Theorem one_byte_order_on_the_safe_path (fuel : nat) (a : Z) (buf : slice) (w : world)
    (accessor bufVar : string) (x : Z)
    (c : string -> string -> Z -> list value -> world -> result (list value * world)) :
  a <> 0 -> fits p buf -> String.eqb bufVar accessor = false ->
  let on_wire (v : Z) : list byte :=
    if Nat.eqb (width p) 1 then [Bytes.of_Z v] else @PutUint wire (width p) v in
  let read_back : Z :=
    wrap p (if Nat.eqb (width p) 1 then Bytes.to_Z (mem w (Data buf))
            else @Uint wire (read (mem w) (Data buf) (width p))) in
  exec wire host decls c (written (marshalScalar accessor (prim_name p) bufVar))
    [(accessor, VInt x); (bufVar, VSlice buf)] w
  = Ok (Next [(accessor, VInt x); (bufVar, VSlice (advance p buf))],
        set_mem w (write (mem w) (Data buf) (on_wire x)))
  /\ exec wire host decls c (written (unmarshalScalar accessor (prim_name p) bufVar))
       [(accessor, VInt x); (bufVar, VSlice buf)] w
     = Ok (Next [(accessor, VInt read_back); (bufVar, VSlice (advance p buf))], w)
  /\ run (S fuel) tn "MarshalBytes" a [VSlice buf] w
     = Ok ([], set_mem w (write (mem w) (Data buf) (on_wire (load host p (mem w) a))))
  /\ run (S fuel) tn "UnmarshalBytes" a [VSlice buf] w
     = Ok ([], set_mem w (store host p (mem w) a read_back)).
Proof using r_fresh tn_declared.
  intros Ha Hbuf Hvars on_wire read_back.
  assert (Henc : forall v, encode wire p v = on_wire v)
    by (intros v; subst on_wire; unfold encode; destruct p; reflexivity).
  assert (Hdec : decode wire p (read (mem w) (Data buf) (width p)) = read_back)
    by (subst read_back; unfold decode; destruct p; cbn [width Nat.eqb];
        rewrite ?hd_read; reflexivity).
  rewrite <- !Henc, <- Hdec. repeat split.
  - apply marshalScalar_spec; assumption.
  - apply unmarshalScalar_spec; assumption.
  - apply MarshalBytes_spec; assumption.
  - apply UnmarshalBytes_spec; assumption.
Qed.


(** C9. WriteTo writes the view of the instance itself, SizeBytes() bytes
    long, to the sink, once, and returns the count the sink reports, as an
    int64, together with the sink's error. *)
Theorem WriteTo_writes_the_instance_view (fuel : nat) (a : Z) (w : world) :
  in_range Int64 (fst (snd (Write (sink w) (read (mem w) a (width p))))) ->
  contents (mem w) (instance_view p a) = read (mem w) a (width p)
  /\ List.length (read (mem w) a (width p)) = width p
  /\ run (S (S fuel)) tn "WriteTo" a [VWriter] w
     = (let res := Write (sink w) (contents (mem w) (instance_view p a)) in
        Ok ([VInt (fst (snd res)); VErr (snd (snd res))],
            {| mem := mem w; task := task w; sink := fst res |})).
Proof using r_fresh tn_declared.
  intros Hint.
  assert (Hview : contents (mem w) (instance_view p a) = read (mem w) a (width p))
    by (unfold contents, instance_view; cbn [Data Len]; now rewrite Nat2Z.id).
  split; [exact Hview|]. split; [apply read_length|].
  unfold run, prog, decls, nt, T. rewrite WriteTo_spec by assumption.
  unfold call_writer. cbn [String.eqb Ascii.eqb Bool.eqb bind].
  rewrite Hview. cbn zeta. rewrite (wrap_id Int64 _ Hint). reflexivity.
Qed.

End GeneratedOperations.

Lemma SizeBytes_is_constant_witness :
  Example.run 1 "Uid" "SizeBytes" 100 [] Example.world0 = Ok ([VInt 4], Example.world0)
  /\ Example.run 1 "Uid" "SizeBytes" 0 [] Example.world0 = Ok ([VInt 4], Example.world0).
Proof.
  destruct (@SizeBytes_is_constant faulting LittleEndian LittleEndian Example.fset
              "Uid" "u" 6 10 Uint32 [] [] eq_refl eq_refl) as (n & Hn & Hw & _ & Hrun).
  cbn in Hw. subst n. split; apply Hrun.
Defined.

Lemma unmarshal_inverts_marshal_witness :
  exists w1 w2,
    Example.run 1 "Uid" "MarshalBytes" 100 [VSlice Example.buffer4] Example.world0 = Ok ([], w1)
    /\ Example.run 1 "Uid" "UnmarshalBytes" 300 [VSlice Example.buffer4] w1 = Ok ([], w2)
    /\ read (mem w2) 300 4 = [Byte.x01; Byte.x02; Byte.x03; Byte.x04].
Proof.
  destruct (@unmarshal_inverts_marshal faulting LittleEndian LittleEndian Example.fset
              "Uid" "u" 6 10 Uint32 [] [] eq_refl eq_refl
              0 100 300 Example.buffer4 Example.world0 "s.f" "dst" 7 0 (fun _ _ _ _ _ => Stuck))
    as [(w1 & w2 & Hm & Hu & Hbytes & _) _].
  - lia.
  - lia.
  - unfold fits, Example.buffer4. cbn. lia.
  - reflexivity.
  - unfold in_range, modulus. cbn. lia.
  - exists w1, w2. repeat split; [exact Hm | exact Hu |].
    cbn [width] in Hbytes. rewrite Hbytes. reflexivity.
Defined.

Lemma newtype_reuses_scalar_codec_witness :
  Example.run 1 "Uid" "Packed" 100 [] Example.world0 = Ok ([VBool true], Example.world0)
  /\ exists bs,
       List.length bs = 4%nat
       /\ Example.run 1 "Uid" "MarshalBytes" 100 [VSlice Example.buffer4] Example.world0
          = Ok ([], set_mem Example.world0 (write Example.memory0 200 bs)).
Proof.
  destruct (@newtype_reuses_scalar_codec faulting LittleEndian LittleEndian Example.fset
              "Uid" "u" 6 10 Uint32 [] [] eq_refl eq_refl
              0 100 Example.buffer4 Example.world0 "s.f" "dst" 0 (fun _ _ _ _ _ => Stuck))
    as (Hpacked & (bs & Hlen & Hm & _) & _).
  - lia.
  - unfold fits, Example.buffer4. cbn. lia.
  - reflexivity.
  - split; [apply Hpacked|]. exists bs. split; [exact Hlen | exact Hm].
Defined.

Lemma one_byte_order_on_the_safe_path_witness :
  Example.run 1 "Uid" "MarshalBytes" 100 [VSlice Example.buffer4] Example.world0
  = Ok ([], set_mem Example.world0
              (write Example.memory0 200 [Byte.x01; Byte.x02; Byte.x03; Byte.x04])).
Proof.
  destruct (@one_byte_order_on_the_safe_path faulting LittleEndian LittleEndian Example.fset
              "Uid" "u" 6 10 Uint32 [] [] eq_refl eq_refl
              0 100 Example.buffer4 Example.world0 "s.f" "dst" 0 (fun _ _ _ _ _ => Stuck))
    as (_ & _ & Hm & _).
  - lia.
  - unfold fits, Example.buffer4. cbn. lia.
  - reflexivity.
  - etransitivity; [exact Hm | reflexivity].
Defined.


Lemma WriteTo_writes_the_instance_view_witness :
  exists w',
    Example.run 2 "Uid" "WriteTo" 100 [VWriter] Example.world0
    = Ok ([VInt 4; VErr None], w')
    /\ sink w' = [Byte.x01; Byte.x02; Byte.x03; Byte.x04].
Proof.
  destruct (@WriteTo_writes_the_instance_view faulting LittleEndian LittleEndian
              Example.fset "Uid" "u" 6 10 Uint32 [] [] eq_refl eq_refl
              0 100 Example.world0)
    as (_ & _ & Hw).
  - vm_compute. split; [discriminate | reflexivity].
  - eexists. split; [etransitivity; [exact Hw | reflexivity] | reflexivity].
Defined.

(** ** The unsafe pair *)

Section UnsafePair.

Context `{ext : Externals}.
Variable wire : ByteOrder.
Variable host : ByteOrder.
Variable fset : FileSet.
Variable tn : string.
Variable r : string.
Variable tpos npos : Pos.
Variable p : prim.
Variable rest : list func_decl.
Variable more : list (string * string).

Let T := {| Name := tn; NamePos := tpos |}.
Let nt := {| Name := prim_name p; NamePos := npos |}.
Let prog := (methods (emitted (generate (fun _ => r) fset T nt)) ++ rest)%list.
Let decls := (tn, prim_name p) :: more.
Let run := call wire host decls prog.

Hypothesis r_fresh : is_reserved r = false.
Hypothesis tn_declared : is_builtin tn = false.

(** MarshalUnsafe and UnmarshalUnsafe move as many bytes as the buffer is
    long, from the receiver's address on. *)
Lemma unsafe_pair_moves_the_buffer_length (fuel : nat) (a a' : Z) (buf : slice) (w : world) :
  0 <= Len buf ->
  exists w1 w2,
    run (S fuel) tn "MarshalUnsafe" a [VSlice buf] w = Ok ([], w1)
    /\ run (S fuel) tn "UnmarshalUnsafe" a' [VSlice buf] w1 = Ok ([], w2)
    /\ contents (mem w1) buf = read (mem w) a (Z.to_nat (Len buf))
    /\ read (mem w2) a' (Z.to_nat (Len buf)) = read (mem w) a (Z.to_nat (Len buf)).
Proof using r_fresh tn_declared.
  intros Hlen. eexists _, _. split; [|split].
  - apply MarshalUnsafe_spec; assumption.
  - apply UnmarshalUnsafe_spec; assumption.
  - cbn [mem set_mem]. unfold contents.
    set (n := Z.to_nat (Len buf)).
    set (bs := read (mem w) a n).
    assert (Hn : List.length bs = n) by apply read_length.
    assert (Hc : read (write (mem w) (Data buf) bs) (Data buf) n = bs)
      by (rewrite <- Hn; apply read_write_same).
    split; [exact Hc|]. rewrite Hc, <- Hn. apply read_write_same.
Qed.

(** Through a buffer exactly SizeBytes() long, the unsafe pair moves exactly
    the bytes of the instance and leaves the receiving instance with the
    bytes the safe pair leaves it with. *)
Lemma unsafe_pair_matches_safe_pair_on_exact_buffer
    (fuel : nat) (a a' : Z) (buf : slice) (w : world) :
  a <> 0 -> a' <> 0 -> fits p buf -> Len buf = Z.of_nat (width p) ->
  exists u1 u2 s1 s2,
    run (S fuel) tn "MarshalUnsafe" a [VSlice buf] w = Ok ([], u1)
    /\ run (S fuel) tn "UnmarshalUnsafe" a' [VSlice buf] u1 = Ok ([], u2)
    /\ run (S fuel) tn "MarshalBytes" a [VSlice buf] w = Ok ([], s1)
    /\ run (S fuel) tn "UnmarshalBytes" a' [VSlice buf] s1 = Ok ([], s2)
    /\ read (mem u2) a' (width p) = read (mem s2) a' (width p)
    /\ load host p (mem u2) a' = load host p (mem s2) a'.
Proof using r_fresh tn_declared.
  intros Ha Ha' Hfits Hexact.
  destruct (unsafe_pair_moves_the_buffer_length fuel a a' buf w) as (u1 & u2 & Hu1 & Hu2 & _ & Hub);
    [lia|].
  rewrite Hexact, Nat2Z.id in Hub.
  exists u1, u2.
  eexists _, _. split; [exact Hu1|]. split; [exact Hu2|].
  split; [apply MarshalBytes_spec; assumption|].
  split; [apply UnmarshalBytes_spec; assumption|].
  cbn [mem set_mem].
  rewrite read_encoded, decode_encode, load_wrap.
  assert (Hbytes : read (mem u2) a' (width p)
                   = read (store host p (write (mem w) (Data buf)
                             (encode wire p (load host p (mem w) a))) a'
                             (load host p (mem w) a)) a' (width p))
    by (rewrite Hub, read_store; symmetry; apply store_load_bytes).
  split; [exact Hbytes|]. unfold load. now rewrite Hbytes.
Qed.

End UnsafePair.

(** C4, at a buffer longer than SizeBytes().  For [type Uid uint32] the size
    is 4; handed a buffer of 8 bytes, MarshalUnsafe fills all 8 of them,
    with the 4 bytes of the instance and the 4 bytes that lie behind it in
    memory, and UnmarshalUnsafe writes all 8 over the receiving instance and
    the 4 bytes behind it.  MarshalBytes on the same buffer writes 4 bytes;
    CopyOut, CopyIn and WriteTo bound their view by SizeBytes(). *)
Theorem unsafe_pair_overruns_the_instance :
  Example.run 1 "Uid" "SizeBytes" 100 [] Example.world0 = Ok ([VInt 4], Example.world0)
  /\ read (mem Example.world0) 200 8 = repeat Byte.x00 8
  /\ read (mem Example.world0) 300 8 = repeat Byte.x00 8
  /\ exists w1 w2,
       Example.run 1 "Uid" "MarshalUnsafe" 100 [VSlice Example.buffer8] Example.world0
       = Ok ([], w1)
       /\ read (mem w1) 200 8
          = [Byte.x01; Byte.x02; Byte.x03; Byte.x04; Byte.xaa; Byte.xbb; Byte.xcc; Byte.xdd]
       /\ Example.run 1 "Uid" "UnmarshalUnsafe" 300 [VSlice Example.buffer8] w1 = Ok ([], w2)
       /\ read (mem w2) 300 8
          = [Byte.x01; Byte.x02; Byte.x03; Byte.x04; Byte.xaa; Byte.xbb; Byte.xcc; Byte.xdd]
       /\ exists w3,
            Example.run 1 "Uid" "MarshalBytes" 100 [VSlice Example.buffer8] Example.world0
            = Ok ([], w3)
            /\ read (mem w3) 200 8
               = [Byte.x01; Byte.x02; Byte.x03; Byte.x04;
                  Byte.x00; Byte.x00; Byte.x00; Byte.x00].
Proof.
  split.
  { exact (@SizeBytes_spec faulting LittleEndian LittleEndian Example.fset
             "Uid" "u" 6 10 Uint32 [] [] eq_refl eq_refl 0 100 Example.world0). }
  split; [reflexivity|]. split; [reflexivity|].
  eexists _, _. split.
  { exact (@MarshalUnsafe_spec faulting LittleEndian LittleEndian Example.fset
             "Uid" "u" 6 10 Uint32 [] [] eq_refl eq_refl 0 100 Example.world0
             Example.buffer8). }
  split; [vm_compute; reflexivity|].
  split.
  { exact (@UnmarshalUnsafe_spec faulting LittleEndian LittleEndian Example.fset
             "Uid" "u" 6 10 Uint32 [] [] eq_refl eq_refl 0 300 _ Example.buffer8). }
  split; [vm_compute; reflexivity|].
  eexists. split.
  - apply (@MarshalBytes_spec faulting LittleEndian LittleEndian Example.fset
             "Uid" "u" 6 10 Uint32 [] [] eq_refl eq_refl 0 100 Example.world0
             Example.buffer8); [lia|].
    unfold fits, Example.buffer8. cbn. lia.
  - vm_compute. reflexivity.
Qed.

(** ** Packedness of composites *)















(** * Further properties of the generator

    ** The type switches agree *)

(** The expression a field's statements advance the buffer by: the size
    [scalarSize] knows, or a call of the field's own SizeBytes. *)
Definition advance_by (accessor typ : string) : expr :=
  let '(size, unknown) := scalarSize {| Name := typ; NamePos := 0 |} in
  if unknown then method accessor "SizeBytes" [] else EInt size.

Definition nothing : stmt := SComment EmptyString.

(** X1. Whatever the type name, marshalScalar and unmarshalScalar each emit
    two statements, and the second is the same in both: the buffer variable
    is re-sliced past the field, by the size scalarSize knows for the type,
    or by the field's SizeBytes() when scalarSize does not know it. *)
Theorem scalar_statements_advance_by_scalarSize (accessor typ bufVar : string) :
  List.length (written (marshalScalar accessor typ bufVar)) = 2%nat
  /\ List.length (written (unmarshalScalar accessor typ bufVar)) = 2%nat
  /\ List.last (written (marshalScalar accessor typ bufVar)) nothing
     = SAssign (EId bufVar) (ESliceFrom (EId bufVar) (advance_by accessor typ))
  /\ List.last (written (unmarshalScalar accessor typ bufVar)) nothing
     = SAssign (EId bufVar) (ESliceFrom (EId bufVar) (advance_by accessor typ)).
Proof.
  unfold advance_by, scalarSize, marshalScalar, unmarshalScalar. cbn [Name].
  by_type typ.
  - destruct p; repeat split; reflexivity.
  - default_branch. repeat split; reflexivity.
Qed.

(** X2. The validator lets a name pass in silence exactly when scalarSize
    knows its size, and then the SizeBytes method emitted for the newtype
    returns that size as a literal; for every other name the emitted
    SizeBytes asks the underlying type, on a nil pointer. *)
Theorem validator_agrees_with_scalarSize (g : interfaceGenerator) (nt : Ident) :
  (match validatePrimitiveNewtype g nt with Passed => true | _ => false end)
  = negb (snd (scalarSize nt))
  /\ hd nothing (written (emitMarshallableForPrimitiveNewtype nt))
     = (if snd (scalarSize nt)
        then SReturn [ECall (ESel (ECall (EParen (EStar (EId (Name nt)))) [EId "nil"])
                               "SizeBytes") []]
        else SReturn [EInt (fst (scalarSize nt))]).
Proof.
  destruct nt as [nm pos].
  unfold validatePrimitiveNewtype, written, emitMarshallableForPrimitiveNewtype, scalarSize,
    marshalPrimitiveScalar, unmarshalPrimitiveScalar.
  cbn [Name NamePos]. by_type nm.
  - destruct p; split; reflexivity.
  - default_branch. split; [|reflexivity].
    destruct (String.eqb nm "int"); [reflexivity|].
    destruct (String.eqb nm "uint"); [reflexivity|].
    destruct (String.eqb nm "string"); reflexivity.
Qed.
